(** * SPECTRE: the client synchronisation engine

  A shallow embedding of the browser-side modules of SPECTRE
  (static/app): [undo_redo.js], [websocket.js], [editor.js],
  [block_actions.js] and [table_actions.js], with the properties the
  design document states about them.

  Conventions.
  - A JavaScript object used as a dictionary is an association list in
    insertion order ([JsObject]), because [for ... in] enumerates the
    keys in that order.  Block ids are taken to be property names that
    are not canonical array indices (those would be enumerated first).
  - A plain object also answers to the names it inherits from
    [Object.prototype] ([JsObject.inherited]): reading one of them in an
    object that has no property of its own under the name gives a
    function, or the prototype itself for [__proto__].  An assignment
    under such a name puts a property of its own in the object, as for
    any other key.  For [__proto__], the assignment of an array puts the
    array in the place of the prototype instead, where the next read of
    [__proto__] finds it: the model keeps it under the key, and does not
    represent what the other keys and [for ... in] then find in that
    array.
  - A JavaScript array is a [list]; [push] appends at the end, [pop]
    removes the last element, [shift] removes the first.
  - A string is the list of the bytes of its UTF-8 encoding.
  - A number is a double, given by its exact value ([Js.number]).
  - A function that can raise returns a [completion]; the state that was
    already mutated when the exception is raised is returned with it. *)

From Stdlib Require Import QArith Ascii String.
From stdpp Require Import base option list strings gmap pretty.
Close Scope Q_scope.

(** ** JavaScript basics *)

Module Js.

Inductive error := TypeError | ReferenceError.

Inductive completion (A : Type) :=
| Normal (a : A)
| Throw (e : error).
Arguments Normal {A} a.
Arguments Throw {A} e.

(** [arr[arr.length - 1]] and the value of [arr.pop()]: the last element,
    [undefined] when the array is empty. *)
Definition lastOr {A} (undefined : A) (arr : list A) : A :=
  default undefined (last arr).

(** [if (x)] on a value that is [null] (or [undefined]) or a string. *)
Definition truthy (x : option string) : bool :=
  match x with
  | Some s => bool_decide (s ≠ "")
  | None => false
  end.

(** [a === b] where one side is a string or [undefined] and the other a
    string or [null]. *)
Definition strictEq (a b : option string) : bool :=
  match a, b with
  | Some x, Some y => bool_decide (x = y)
  | _, _ => false
  end.

(** [`${x}`] *)
Definition template (x : option string) : string := default "undefined" x.

(** [s.replace(pattern, replacement)] for a string pattern: the first
    occurrence only. *)
Fixpoint replace (pattern replacement s : string) : string :=
  if String.prefix pattern s then
    replacement +:+
    String.substring (String.length pattern)
      (String.length s - String.length pattern) s
  else
    match s with
    | EmptyString => EmptyString
    | String c s' => String c (replace pattern replacement s')
    end.

(** *** Numbers out of strings *)

(** The white space of ASCII. *)
Definition isWhiteSpace (c : ascii) : bool :=
  bool_decide (c ∈ [" "; "009"; "010"; "011"; "012"; "013"]%char).

Definition isDigit (c : ascii) : bool :=
  bool_decide (48 ≤ nat_of_ascii c ≤ 57).

Fixpoint skipWhiteSpace (l : list ascii) : list ascii :=
  match l with
  | c :: l' => if isWhiteSpace c then skipWhiteSpace l' else l
  | [] => []
  end.

(** The white space that [parseInt] and [parseFloat] skip at the head of
    a string: that of ASCII and, in UTF-8, U+00A0, U+1680, U+2000 to
    U+200A, U+2028, U+2029, U+202F, U+205F, U+3000 and U+FEFF. *)
Fixpoint trimStart (l : list ascii) : list ascii :=
  match l with
  | c1 :: l1 =>
      if isWhiteSpace c1 then trimStart l1
      else
        match l1 with
        | c2 :: l2 =>
            if bool_decide (c1 = "194" ∧ c2 = "160")%char then trimStart l2
            else
              match l2 with
              | c3 :: l3 =>
                  let n3 := nat_of_ascii c3 in
                  if bool_decide
                       ((c1 = "225" ∧ c2 = "154" ∧ c3 = "128")
                        ∨ (c1 = "226" ∧ c2 = "128"
                           ∧ (128 ≤ n3 ≤ 138 ∨ n3 = 168 ∨ n3 = 169 ∨ n3 = 175))
                        ∨ (c1 = "226" ∧ c2 = "129" ∧ c3 = "159")
                        ∨ (c1 = "227" ∧ c2 = "128" ∧ c3 = "128")
                        ∨ (c1 = "239" ∧ c2 = "187" ∧ c3 = "191"))%char
                  then trimStart l3 else l
              | [] => l
              end
        | [] => l
        end
  | [] => []
  end.

(** The longest prefix of digits, and what follows it. *)
Fixpoint spanDigits (l : list ascii) : list ascii * list ascii :=
  match l with
  | c :: l' =>
      if isDigit c then let (ds, rest) := spanDigits l' in (c :: ds, rest)
      else ([], l)
  | [] => ([], [])
  end.

Definition digitsValue (ds : list ascii) : Z :=
  fold_left (λ acc c, 10 * acc + (Z.of_nat (nat_of_ascii c) - 48))%Z ds 0%Z.

(** An optional sign: whether it is [-], and what follows it. *)
Definition takeSign (l : list ascii) : bool * list ascii :=
  match l with
  | "-"%char :: l' => (true, l')
  | "+"%char :: l' => (false, l')
  | _ => (false, l)
  end.

(** [parseInt(x, 10)] of an attribute that may be missing; [None] is
    [NaN].  The integer is exact. *)
Definition parseInt (x : option string) : option Z :=
  match x with
  | None => None
  | Some s =>
      let (negative, l) := takeSign (trimStart (list_ascii_of_string s)) in
      let (ds, _) := spanDigits l in
      if ds is [] then None
      else Some (if negative then - digitsValue ds else digitsValue ds)%Z
  end.

(** A number: a double, given by its exact value when it is finite;
    [-0] is not told from [0]. *)
Inductive number := NaN | Infinity (negative : bool) | Finite (q : Q).

(** Rounding to the nearest integer, ties to even, of [num / den] for
    [num] not negative and [den] positive. *)
Definition roundHalfEven (num den : Z) : Z :=
  let f := (num / den)%Z in
  let r := (num mod den)%Z in
  if decide (2 * r < den)%Z then f
  else if decide (den < 2 * r)%Z then (f + 1)%Z
  else if Z.even f then f else (f + 1)%Z.

(** [2 ^ k] for [k] not negative, and 1 otherwise: the numerator of
    [2 ^ k] as a fraction, whose denominator is [pow2 (- k)]. *)
Definition pow2 (k : Z) : Z := (2 ^ Z.max k 0)%Z.

(** The double nearest to a rational, ties to even: with [e] the binary
    exponent of the value, the value is rounded to a multiple of
    [2 ^ (e - 52)], of [2 ^ -1074] in the subnormal range, and what
    reaches [2 ^ 1024] is infinite. *)
Definition toDouble (q : Q) : number :=
  let a := Z.abs (Qnum q) in
  let d := Zpos (Qden q) in
  if decide (a = 0)%Z then Finite 0
  else
    let negative := bool_decide (Qnum q < 0)%Z in
    let e0 := (Z.log2 a - Z.log2 d)%Z in
    let e :=
      if decide (d * pow2 e0 ≤ a * pow2 (- e0))%Z then e0 else (e0 - 1)%Z in
    let p := Z.max (e - 52) (-1074) in
    let m := roundHalfEven (a * pow2 (- p)) (d * pow2 p) in
    if decide (2 ^ 1024 ≤ m * pow2 p)%Z then Infinity negative
    else
      let m := if negative then (- m)%Z else m in
      Finite (Qred (Qmake (m * pow2 p) (Z.to_pos (pow2 (- p))))).

(** [parseFloat(s)]: white space, then the longest prefix that is a
    decimal literal, rounded to a double. *)
Definition parseFloat (s : string) : number :=
  let (negative, l) := takeSign (trimStart (list_ascii_of_string s)) in
  if bool_decide (list_ascii_of_string "Infinity" `prefix_of` l)
  then Infinity negative
  else
    let (intDigits, afterInt) := spanDigits l in
    let (fracDigits, afterFrac) :=
      match afterInt with
      | "."%char :: l' => spanDigits l'
      | _ => ([], afterInt)
      end in
    if bool_decide (intDigits = [] ∧ fracDigits = []) then NaN
    else
      let exponent :=
        match afterFrac with
        | c :: l' =>
            if bool_decide (c = "e"%char ∨ c = "E"%char) then
              let (expNegative, l'') := takeSign l' in
              let (expDigits, _) := spanDigits l'' in
              if expNegative then (- digitsValue expDigits)%Z
              else digitsValue expDigits
            else 0%Z
        | [] => 0%Z
        end in
      let mantissa := digitsValue (intDigits ++ fracDigits) in
      let mantissa := if negative then (- mantissa)%Z else mantissa in
      let scale := (exponent - Z.of_nat (length fracDigits))%Z in
      toDouble
        (if decide (0 ≤ scale)%Z
         then Qmake (mantissa * 10 ^ scale) 1
         else Qmake mantissa (Z.to_pos (10 ^ (- scale)))).

(** [n >= m] for a finite [m] *)
Definition geq (n : number) (m : Q) : bool :=
  match n with
  | NaN => false
  | Infinity negative => negb negative
  | Finite q => Qle_bool m q
  end.

(** [s.endsWith(suffix)] *)
Definition endsWith (suffix s : string) : bool :=
  bool_decide (list_ascii_of_string suffix `suffix_of` list_ascii_of_string s).

(** *** Values out of [JSON.parse] *)

(** Numbers are the integers that [String] prints in plain digits; the
    keys of an object are distinct. *)
#[local] Unset Elimination Schemes.
Inductive json :=
| JNull
| JBool (b : bool)
| JNum (n : Z)
| JStr (s : string)
| JArr (items : list json)
| JObj (props : list (string * json)).
#[local] Set Elimination Schemes.

(** [if (v)] *)
Definition jsTruthy (v : json) : bool :=
  match v with
  | JNull => false
  | JBool b => b
  | JNum n => bool_decide (n ≠ 0%Z)
  | JStr s => bool_decide (s ≠ "")
  | JArr _ | JObj _ => true
  end.

(** [String(v)] *)
Fixpoint toString (v : json) : string :=
  match v with
  | JNull => "null"
  | JBool b => if b then "true" else "false"
  | JNum n => pretty n
  | JStr s => s
  | JArr items =>
      String.concat ","
        (map (λ item, if item is JNull then "" else toString item) items)
  | JObj _ => "[object Object]"
  end.

(** What the program has put in the [style.width] of a [<col>]:
    [Verbatim v] is the assignment of the value [v] as it is, of which
    CSS keeps what it can read as a width; [Pixels n] is a width of [n]
    pixels, from the template [`${n}px`], that the style holds. *)
Inductive cssWidth :=
| Verbatim (v : json)
| Pixels (n : number).

End Js.

(** An object with string keys, in property insertion order. *)

Module JsObject.

(** The names that every object inherits from [Object.prototype], each
    with what [.length] gives on the value found under it: the number of
    parameters of the function, or [undefined] ([None]) on the prototype
    object, which [__proto__] yields.  These values are all truthy; none
    has the methods of an array or a property under an index. *)
Definition inherited (k : string) : option (option nat) :=
  if bool_decide (k ∈ ["toString"; "toLocaleString"; "valueOf"])
  then Some (Some 0)
  else if bool_decide (k ∈ ["constructor"; "hasOwnProperty"; "isPrototypeOf";
                            "propertyIsEnumerable"; "__lookupGetter__";
                            "__lookupSetter__"])
  then Some (Some 1)
  else if bool_decide (k ∈ ["__defineGetter__"; "__defineSetter__"])
  then Some (Some 2)
  else if bool_decide (k = "__proto__") then Some None
  else None.

Section Obj.

Context {V : Type}.
Implicit Types (o : list (string * V)) (k : string) (v : V).

(** The property of its own that [o] has under [k]; [None] when it has
    none. *)
Fixpoint get k o : option V :=
  match o with
  | [] => None
  | (k', v) :: o' => if decide (k = k') then Some v else get k o'
  end.

(** [o[k] = v]: an existing property keeps its place, a new one goes
    last. *)
Fixpoint set k v o : list (string * V) :=
  match o with
  | [] => [(k, v)]
  | (k', v') :: o' =>
      if decide (k = k') then (k, v) :: o' else (k', v') :: set k v o'
  end.

End Obj.
End JsObject.

(** ** undo_redo.js *)

Module UndoRedo.
Import Js.

(** A saved state is the block's [innerHTML].  [Undefined] is what
    JavaScript yields when an empty array is popped or read. *)
Inductive snapshot := Undefined | Html (html : string).

#[global] Instance snapshot_eq_dec : EqDecision snapshot.
Proof. solve_decision. Defined.

Definition MAX_HISTORY : nat := 5000.

(** [let undoStacks = {}; let redoStacks = {};]  The arrays stored under
    different keys, and in the two objects, are distinct arrays (each is
    created by its own [[]]), so updating one in place is the same as
    storing the updated array under its key. *)
Record state := Stacks {
  undoStacks : list (string * list snapshot);
  redoStacks : list (string * list snapshot)
}.

Definition initial : state := Stacks [] [].

(** The object [{ blockId, content }] returned by [undo] and [redo]. *)
Record entry := Entry { blockId : string; content : snapshot }.

(** The state and exception monad of the module. *)
Definition M (A : Type) : Type := state → completion A * state.

Definition ret {A} (a : A) : M A := λ st, (Normal a, st).
Definition throw {A} (e : error) : M A := λ st, (Throw e, st).
Definition bind {A B} (m : M A) (k : A → M B) : M B := λ st,
  match m st with
  | (Normal a, st') => k a st'
  | (Throw e, st') => (Throw e, st')
  end.

#[global] Instance M_ret : MRet M := @ret.
#[global] Instance M_bind : MBind M := λ A B k m, bind m k.

(** What [stacks[blockId]] evaluates to when it is not [undefined]: the
    array stored under the key, or the value that the object inherits
    under that name, of which the program only reads [length]. *)
Inductive slot := Array (arr : list snapshot) | Alien (len : option nat).

(** [stacks[blockId]]; [None] is [undefined]. *)
Definition lookup (b : string) (stacks : list (string * list snapshot)) :
    option slot :=
  match JsObject.get b stacks with
  | Some arr => Some (Array arr)
  | None => Alien <$> JsObject.inherited b
  end.

(** [x.length], [None] when it is [undefined], and [x[x.length - 1]]. *)
Definition lengthOf (x : slot) : option nat :=
  match x with
  | Array arr => Some (length arr)
  | Alien len => len
  end.

Definition lastOf (x : slot) : snapshot :=
  match x with
  | Array arr => lastOr Undefined arr
  | Alien _ => Undefined
  end.

(** [undoStacks[blockId]] and [redoStacks[blockId]] *)
Definition undoEntry (b : string) : M (option slot) :=
  λ st, (Normal (lookup b (undoStacks st)), st).
Definition redoEntry (b : string) : M (option slot) :=
  λ st, (Normal (lookup b (redoStacks st)), st).

(** The same, as the receiver of [.push], [.pop] or [.shift]: on
    [undefined], and on a value that has no such method, the call raises
    a [TypeError]. *)
Definition asArray (x : option slot) : M (list snapshot) :=
  match x with
  | Some (Array arr) => ret arr
  | _ => throw TypeError
  end.

Definition setUndo (b : string) (arr : list snapshot) : M unit :=
  λ st, (Normal tt, Stacks (JsObject.set b arr (undoStacks st)) (redoStacks st)).
Definition setRedo (b : string) (arr : list snapshot) : M unit :=
  λ st, (Normal tt, Stacks (undoStacks st) (JsObject.set b arr (redoStacks st))).

(** [initStack(blockId)] *)
Definition initStack (blockId : string) : M unit :=
  u ← undoEntry blockId;
  match u with
  | Some _ => ret tt
  | None => setUndo blockId [] ;; setRedo blockId []
  end.

(** [pushState(blockId, newState)].  After [initStack] the value under
    the key is never [undefined]. *)
Definition pushState (blockId : string) (newState : snapshot) : M unit :=
  initStack blockId ;;
  currentStack ← undoEntry blockId;
  match currentStack with
  | None => throw TypeError
  | Some stack =>
      if decide (lengthOf stack = Some 0) then
        arr ← asArray currentStack;
        setUndo blockId (arr ++ [newState]) ;;
        setRedo blockId []
      else if decide (lastOf stack ≠ newState) then
        arr ← asArray currentStack;
        let pushed := arr ++ [newState] in
        setUndo blockId pushed ;;
        (if decide (MAX_HISTORY < length pushed)
         then setUndo blockId (tail pushed) else ret tt) ;;
        r ← redoEntry blockId;
        match r ≫= lengthOf with
        | Some (S _) => setRedo blockId []
        | _ => ret tt
        end
      else ret tt
  end.

(** [undo(blockId)]; [None] is [null].  [undefined <= 1] is false. *)
Definition undo (blockId : string) : M (option entry) :=
  u ← undoEntry blockId;
  match u with
  | None => ret None
  | Some stack =>
      if (if lengthOf stack is Some n then bool_decide (n ≤ 1) else false)
      then ret None
      else
        initStack blockId ;;
        currentStack ← undoEntry blockId;
        redoStack ← redoEntry blockId;
        arr ← asArray currentStack;
        let currentState := lastOr Undefined arr in
        setUndo blockId (removelast arr) ;;
        redoArr ← asArray redoStack;
        setRedo blockId (redoArr ++ [currentState]) ;;
        let previousState := lastOr Undefined (removelast arr) in
        ret (Some (Entry blockId previousState))
  end.

(** [redo(blockId)] *)
Definition redo (blockId : string) : M (option entry) :=
  r ← redoEntry blockId;
  match r with
  | None => ret None
  | Some stack =>
      if decide (lengthOf stack = Some 0) then ret None
      else
        initStack blockId ;;
        currentStack ← undoEntry blockId;
        redoStack ← redoEntry blockId;
        redoArr ← asArray redoStack;
        let nextState := lastOr Undefined redoArr in
        setRedo blockId (removelast redoArr) ;;
        arr ← asArray currentStack;
        setUndo blockId (arr ++ [nextState]) ;;
        ret (Some (Entry blockId nextState))
  end.

(** The entries of a block in one of the two objects; a block without an
    array of its own has none. *)
Definition stackIn (b : string) (o : list (string * list snapshot)) :
    list snapshot :=
  default [] (JsObject.get b o).

(** [for (const blockId in stacks)] of [peekUndoBlockId] and
    [peekRedoBlockId]: the loop visits the keys and reads
    [stacks[blockId].length]; [minLen] is 1 for undo ([length > 1]) and 0
    for redo ([length > 0]). *)
Definition peekStep (minLen : nat) (stacks : list (string * list snapshot))
    (acc : option string * nat) (blockId : string) : option string * nat :=
  let len := length (stackIn blockId stacks) in
  if decide (minLen < len ∧ acc.2 ≤ len) then (Some blockId, len) else acc.

Definition peekBlockId (minLen : nat) (stacks : list (string * list snapshot)) :
    option string :=
  (fold_left (peekStep minLen stacks) stacks.*1 (None, 0)).1.

Definition peekUndoBlockId (st : state) : option string :=
  peekBlockId 1 (undoStacks st).

Definition peekRedoBlockId (st : state) : option string :=
  peekBlockId 0 (redoStacks st).

(** [clearBlockHistory(blockId)]: an array, even an empty one, is
    truthy, and so is what the objects inherit. *)
Definition clearBlockHistory (blockId : string) : M unit :=
  u ← undoEntry blockId;
  (if u is Some _ then setUndo blockId [] else ret tt) ;;
  r ← redoEntry blockId;
  (if r is Some _ then setRedo blockId [] else ret tt).

(** [clearStacks()] *)
Definition clearStacks : M unit := λ _, (Normal tt, initial).

(** The two stacks of a block as the design document speaks of them. *)
Definition undoStackOf (b : string) (st : state) : list snapshot :=
  stackIn b (undoStacks st).
Definition redoStackOf (b : string) (st : state) : list snapshot :=
  stackIn b (redoStacks st).

(** The calls other modules can make; the two objects are private to the
    module, so every state the program can be in is the result of a
    sequence of calls from [initial]. *)
Inductive call :=
| InitStack (b : string)
| PushState (b : string) (s : snapshot)
| Undo (b : string)
| Redo (b : string)
| ClearBlockHistory (b : string)
| ClearStacks.

Definition exec (st : state) (c : call) : state :=
  match c with
  | InitStack b => (initStack b st).2
  | PushState b s => (pushState b s st).2
  | Undo b => (undo b st).2
  | Redo b => (redo b st).2
  | ClearBlockHistory b => (clearBlockHistory b st).2
  | ClearStacks => (clearStacks st).2
  end.

Definition run (calls : list call) (st : state) : state :=
  fold_left exec calls st.

(** The blocks with an undo array are those with a redo array. *)
Definition paired (st : state) : Prop :=
  ∀ b, is_Some (JsObject.get b (undoStacks st)) ↔
       is_Some (JsObject.get b (redoStacks st)).

(** The entries of a block, undo and redo together, fit in the bound. *)
Definition bounded (st : state) : Prop :=
  ∀ b, length (undoStackOf b st) + length (redoStackOf b st) ≤ MAX_HISTORY.

(** The calls that only move along the history of a block. *)
Definition isMove (c : call) : bool :=
  match c with
  | Undo _ | Redo _ => true
  | _ => false
  end.

End UndoRedo.

(** ** websocket.js *)

Module WebSocket.
Import UndoRedo.

Definition MAX_RECONNECT_ATTEMPTS : Z := 5.
Definition RECONNECT_DELAY : Z := 3000.

Inductive readyState := CONNECTING | OPEN | CLOSING | CLOSED.

(** The messages [{ type, payload }] that the modules below send.  The
    [metadata] object of [update_document] is passed along as found in the
    cache and is not represented. *)
Inductive message :=
| set_username (username : option string)
| lock_block (document_id : option string) (block_id : string)
| unlock_block (document_id : option string) (block_id : string)
| update_document (document_id : option string) (block_id : string)
    (content : snapshot).

(** The callbacks given to [setTimeout] and never cancelled: the next
    connection attempt and the focus check after a blur. *)
Inductive callback :=
| Reconnect
| BlurCheck (blockIdLosingFocus : string).

(** What the page does that can be seen from outside, in order. *)
Inductive effect :=
| Send (m : message)
| ShowNotification (text kind : string)
| ShowWebSocketClosedBanner
| HideWebSocketClosedBanner
| SetUsername (username : option string)
| SetTimeout (cb : callback) (delay : Z).

(** [socket] is [null] or the socket with its [readyState];
    [currentUsername] is [null] or a string.  The heartbeat interval is
    not represented. *)
Record state := Connection {
  socket : option readyState;
  currentUsername : option string;
  reconnectAttempts : Z;
  effects : list effect
}.

Definition initial : state := Connection None None 0 [].

Definition emit (e : effect) (st : state) : state :=
  Connection (socket st) (currentUsername st) (reconnectAttempts st)
    (effects st ++ [e]).

Definition showNotification (text kind : string) : state → state :=
  emit (ShowNotification text kind).

(** [sendMessage(type, payload)]; [socket.send] does not raise on an open
    socket. *)
Definition sendMessage (m : message) (st : state) : bool * state :=
  match socket st with
  | Some OPEN => (true, emit (Send m) st)
  | _ =>
      (false,
       showNotification "Cannot send message: Connection not active."
         "warning" st)
  end.

(** [connectWebSocket(username)]; the constructor does not raise on the
    URL that is built from [window.location]. *)
Definition connectWebSocket (username : option string) (st : state) : state :=
  match socket st with
  | Some OPEN | Some CONNECTING =>
      if decide (username ≠ currentUsername st) then
        let st := (sendMessage (set_username username) st).2 in
        emit (SetUsername username)
          (Connection (socket st) username (reconnectAttempts st) (effects st))
      else st
  | _ =>
      showNotification "Connecting..." "info"
        (Connection (Some CONNECTING) username (reconnectAttempts st)
           (effects st))
  end.

(** [socket.onopen], run once the socket is open. *)
Definition onopen (st : state) : state :=
  let st := Connection (Some OPEN) (currentUsername st) 0 (effects st) in
  let st := showNotification "Connected!" "success" st in
  let st := emit HideWebSocketClosedBanner st in
  (sendMessage (set_username (currentUsername st)) st).2.

(** [socket.onclose] *)
Definition onclose (st : state) : state :=
  let st :=
    emit ShowWebSocketClosedBanner
      (Connection None (currentUsername st) (reconnectAttempts st) (effects st)) in
  if decide (reconnectAttempts st < MAX_RECONNECT_ATTEMPTS)%Z then
    let attempts := (reconnectAttempts st + 1)%Z in
    let delay := (RECONNECT_DELAY * attempts)%Z in
    let st :=
      Connection (socket st) (currentUsername st) attempts (effects st) in
    let st :=
      showNotification
        ("Connection lost. Reconnecting... (Attempt " +:+ pretty attempts +:+ ")")
        "warning" st in
    emit (SetTimeout Reconnect delay) st
  else
    showNotification "Connection lost. Could not reconnect." "error" st.

(** The delays of the connection attempts scheduled so far, and the
    messages sent so far. *)
Definition reconnectDelays (es : list effect) : list Z :=
  omap (λ e, if e is SetTimeout Reconnect delay then Some delay else None) es.

Definition sent (es : list effect) : list message :=
  omap (λ e, if e is Send m then Some m else None) es.

End WebSocket.

(** ** editor.js *)

Module Editor.
Import Js UndoRedo WebSocket.

Definition CHAR_UPDATE_THRESHOLD : nat := 20.
Definition TIME_UPDATE_THRESHOLD_MS : Z := 8000.

(** A block of the document as the editor sees it in the page, with its
    [id] and its [data-block-type] and [data-parent-block-id] attributes
    ([None] when it has none).  Reading [innerHTML] gives back what was
    assigned to it. *)
Record element := Element {
  tagName : string;
  id : option string;
  blockType : option string;
  parentBlockId : option string;
  contentEditable : string;
  classList : list string;
  title : string;
  innerHTML : string
}.

Definition classAdd (c : string) (classes : list string) : list string :=
  if decide (c ∈ classes) then classes else classes ++ [c].

Definition classRemove (c : string) (classes : list string) : list string :=
  filter (λ x, x ≠ c) classes.

(** The idle timer of [handleBlockInput], with the [blockId] its callback
    has captured.  Every [setTimeout] of this timer follows a
    [clearTimeout] of the one before, so the timer that is pending is the
    one in [timerId]. *)
Record idleTimer := IdleTimer { idleDelay : Z; idleBlockId : string }.

Record typing := Typing {
  currentBlockId : option string;
  charCountSinceLastUpdate : nat;
  timerId : option idleTimer
}.

(** The module's variables, the blocks of [editorContainer] by
    [data-block-id], and the two modules it drives.  [activeLocks] holds
    the keys under which the object has a property of its own, which is
    always [true]. *)
Record state := Page {
  currentDocId : option string;
  typingState : typing;
  activeLocks : gset string;
  blocks : gmap string element;
  history : UndoRedo.state;
  ws : WebSocket.state
}.

Definition withTyping (t : typing) (st : state) : state :=
  Page (currentDocId st) t (activeLocks st) (blocks st) (history st) (ws st).
Definition withLocks (l : gset string) (st : state) : state :=
  Page (currentDocId st) (typingState st) l (blocks st) (history st) (ws st).
Definition withBlocks (d : gmap string element) (st : state) : state :=
  Page (currentDocId st) (typingState st) (activeLocks st) d (history st) (ws st).
Definition withHistory (h : UndoRedo.state) (st : state) : state :=
  Page (currentDocId st) (typingState st) (activeLocks st) (blocks st) h (ws st).
Definition withWs (w : WebSocket.state) (st : state) : state :=
  Page (currentDocId st) (typingState st) (activeLocks st) (blocks st) (history st) w.

Definition notify (text kind : string) (st : state) : state :=
  withWs (showNotification text kind (ws st)) st.

Definition send (m : message) (st : state) : bool * state :=
  let (ok, w) := sendMessage m (ws st) in (ok, withWs w st).

(** [typingState.currentBlockId = null; charCountSinceLastUpdate = 0;
    clearTimeout(timerId); timerId = null] and the like. *)
Definition resetTyping (blockId : option string) (st : state) : state :=
  withTyping (Typing blockId 0 None) st.

Definition getBlockElement (blockId : string) (st : state) : option element :=
  blocks st !! blockId.

Definition setInnerHTML (html : string) (el : element) : element :=
  Element (tagName el) (id el) (blockType el) (parentBlockId el)
    (contentEditable el) (classList el) (title el) html.

Definition setBlock (blockId : string) (el : element) (st : state) : state :=
  withBlocks (<[blockId := el]> (blocks st)) st.

(** The browser puts what the user has typed into the block, before it
    dispatches the input event. *)
Definition typed (blockId html : string) (st : state) : state :=
  match getBlockElement blockId st with
  | Some block => setBlock blockId (setInnerHTML html block) st
  | None => st
  end.

(** What assigning a saved state to [innerHTML] stores. *)
Definition toHTML (content : snapshot) : string :=
  match content with
  | Html html => html
  | Undefined => "undefined"
  end.

Definition applyLockStyle (lockedBy : option string) (el : element) : element :=
  Element (tagName el) (id el) (blockType el) (parentBlockId el) "false"
    (classRemove "editable" (classAdd "locked" (classList el)))
    ("Locked by " +:+ template lockedBy) (innerHTML el).

Definition removeLockStyle (el : element) : element :=
  let (editable, classes) :=
    if bool_decide (tagName el ≠ "HR" ∧ blockType el ≠ Some "table-options"
                    ∧ blockType el ≠ Some "table")
    then ("true", classAdd "editable" (classList el))
    else ("false", classRemove "editable" (classList el)) in
  Element (tagName el) (id el) (blockType el) (parentBlockId el) editable
    (classRemove "locked" classes) "" (innerHTML el).

(** [isBlockLockedByOther(blockId)] *)
Definition isBlockLockedByOther (blockId : string) (st : state) : bool :=
  match getBlockElement blockId st with
  | None => false
  | Some block =>
      if bool_decide (contentEditable block = "false" ∧ "locked" ∈ classList block)
      then
        let locker :=
          if bool_decide (title block ≠ "")
          then replace "Locked by " "" (title block) else "another user" in
        bool_decide (Some locker ≠ currentUsername (ws st))
      else false
  end.

(** [activeLocks[blockId]] as a condition: true under a key of its own,
    and under every name that the object inherits. *)
Definition lockHeld (blockId : string) (st : state) : bool :=
  bool_decide (blockId ∈ activeLocks st)
  || bool_decide (is_Some (JsObject.inherited blockId)).

(** [activeLocks[blockId] = true]; under [__proto__] the value, which is
    not an object, is dropped. *)
Definition trackLock (blockId : string) (st : state) : state :=
  if bool_decide (blockId = "__proto__") then st
  else withLocks (activeLocks st ∪ {[blockId]}) st.

(** [delete activeLocks[blockId]] *)
Definition dropLock (blockId : string) (st : state) : state :=
  withLocks (activeLocks st ∖ {[blockId]}) st.

(** [sendSpecificBlockUpdate(blockId, content, metadata)] *)
Definition sendSpecificBlockUpdate (blockId : string) (content : snapshot)
    (st : state) : bool * state :=
  if truthy (currentDocId st)
  then send (update_document (currentDocId st) blockId content) st
  else (false, st).

(** [sendCurrentBlockUpdate(force)]; [getBlockMetadata] of an element is
    never [null], so the test on the metadata always passes. *)
Definition sendCurrentBlockUpdate (force : bool) (st : state) : state :=
  if negb (truthy (currentBlockId (typingState st))) then st
  else if negb force && bool_decide (charCountSinceLastUpdate (typingState st) = 0)
  then st
  else
    match currentBlockId (typingState st) with
    | None => st
    | Some blockId =>
        match getBlockElement blockId st with
        | None => st
        | Some block =>
            if bool_decide (contentEditable block ≠ "true") then st
            else
              let st := (sendSpecificBlockUpdate blockId (Html (innerHTML block)) st).2 in
              resetTyping (currentBlockId (typingState st)) st
        end
    end.

(** [handleBlockInput(event)]; [target] is the block that
    [event.target.closest('[data-block-id]')] finds, if any.  When
    [pushState] raises, the handler ends there, and the exception goes to
    the browser: the result is the page as it is then. *)
Definition handleBlockInput (target : option string) (st : state) : state :=
  match target with
  | None => st
  | Some targetId =>
      match getBlockElement targetId st with
      | None => st
      | Some block =>
          if bool_decide (contentEditable block ≠ "true")
             || negb (strictEq (Some targetId) (currentBlockId (typingState st)))
          then st
          else
            let blockId := targetId in
            match pushState blockId (Html (innerHTML block)) (history st) with
            | (Throw _, h) => withHistory h st
            | (Normal _, h) =>
                let st := withHistory h st in
                let count := S (charCountSinceLastUpdate (typingState st)) in
                let st :=
                  withTyping (Typing (currentBlockId (typingState st)) count None) st in
                if bool_decide (CHAR_UPDATE_THRESHOLD ≤ count)
                then sendCurrentBlockUpdate false st
                else
                  withTyping
                    (Typing (currentBlockId (typingState st)) count
                       (Some (IdleTimer TIME_UPDATE_THRESHOLD_MS blockId))) st
            end
      end
  end.

(** The callback of the idle timer, when it fires. *)
Definition idleTimeout (timer : idleTimer) (st : state) : state :=
  let st :=
    if strictEq (Some (idleBlockId timer)) (currentBlockId (typingState st))
    then sendCurrentBlockUpdate false st else st in
  withTyping
    (Typing (currentBlockId (typingState st))
       (charCountSinceLastUpdate (typingState st)) None) st.

(** [unlock_block] for a block whose lock is tracked, as both focus
    handlers do. *)
Definition unlockIfHeld (blockId : string) (st : state) : state :=
  if lockHeld blockId st then
    let st := (send (unlock_block (currentDocId st) blockId) st).2 in
    dropLock blockId st
  else st.

(** [handleBlockFocus(event)] *)
Definition handleBlockFocus (target : option string) (st : state) : state :=
  match target with
  | None => st
  | Some blockId =>
      match getBlockElement blockId st with
      | None => st
      | Some block =>
          let isBlockEditable := bool_decide (contentEditable block = "true") in
          if strictEq (Some blockId) (currentBlockId (typingState st)) then
            if isBlockEditable
            then withHistory (initStack blockId (history st)).2 st else st
          else
            let st :=
              match currentBlockId (typingState st) with
              | Some previousBlockId =>
                  if truthy (Some previousBlockId)
                  then unlockIfHeld previousBlockId (sendCurrentBlockUpdate true st)
                  else st
              | None => st
              end in
            if negb isBlockEditable then resetTyping None st
            else
              let st := resetTyping (Some blockId) st in
              let st := withHistory (initStack blockId (history st)).2 st in
              let st :=
                if lockHeld blockId st then st
                else
                  let (ok, st) := send (lock_block (currentDocId st) blockId) st in
                  if ok then trackLock blockId st else st in
              withHistory (initStack blockId (history st)).2 st
      end
  end.

(** [handleBlockBlur(event)]: the check is left to a timer. *)
Definition handleBlockBlur (target : option string) (st : state) : state :=
  match target with
  | None => st
  | Some blockIdLosingFocus =>
      if negb (strictEq (Some blockIdLosingFocus) (currentBlockId (typingState st)))
      then st
      else withWs (emit (SetTimeout (BlurCheck blockIdLosingFocus) 150) (ws st)) st
  end.

(** The callback of that timer; [newlyFocusedBlockId] is the block that
    holds [document.activeElement] when it runs, if any. *)
Definition blurTimeout (blockIdLosingFocus : string)
    (newlyFocusedBlockId : option string) (st : state) : state :=
  if strictEq newlyFocusedBlockId (Some blockIdLosingFocus) then st
  else
    let st := sendCurrentBlockUpdate true st in
    let st := unlockIfHeld blockIdLosingFocus st in
    if strictEq (Some blockIdLosingFocus) (currentBlockId (typingState st))
    then resetTyping None st else st.

Inductive actionType := undoAction | redoAction.

Definition actionOfKey (key : string) : option actionType :=
  if bool_decide (key = "z" ∨ key = "Z") then Some undoAction
  else if bool_decide (key = "y" ∨ key = "Y") then Some redoAction
  else None.

Definition nothingToDo (action : actionType) : state → state :=
  match action with
  | undoAction =>
      notify "Unable to perform undo: Nothing to undo or history cleared due to external changes." "warning"
  | redoAction => notify "Unable to perform redo: Nothing to redo." "warning"
  end.

Definition actionName (action : actionType) : string :=
  match action with undoAction => "undo" | redoAction => "redo" end.

(** [if (actionType === 'undo') undoRedo.clearAllRedoStacks();]
    undo_redo.js exports no [clearAllRedoStacks], so the call raises a
    [TypeError]. *)
Definition clearAllRedoStacksIfUndo (action : actionType) : completion unit :=
  match action with
  | undoAction => Throw TypeError
  | redoAction => Normal tt
  end.

Definition perform (action : actionType) (blockId : string) :
    UndoRedo.M (option entry) :=
  match action with
  | undoAction => undo blockId
  | redoAction => redo blockId
  end.

(** [(actionType === 'undo') ? undoRedo.peekUndoBlockId()
    : undoRedo.peekRedoBlockId()] *)
Definition peekTarget (action : actionType) (h : UndoRedo.state) :
    option string :=
  match action with
  | undoAction => peekUndoBlockId h
  | redoAction => peekRedoBlockId h
  end.

(** [handleKeyDown(event)].  The two pauses of 50 ms between the three
    messages of the second scenario are not represented: the handler is
    taken to run without another event in between. *)
Definition handleKeyDown (ctrlKey : bool) (key : string) (st : state) :
    completion unit * state :=
  if negb ctrlKey then (Normal tt, st)
  else
    match actionOfKey key with
    | None => (Normal tt, st)
    | Some action =>
        let currentFocusedBlockId := currentBlockId (typingState st) in
        match peekTarget action (history st) with
        | None => (Normal tt, nothingToDo action st)
        | Some targetBlockId =>
            if negb (truthy (Some targetBlockId))
            then (Normal tt, nothingToDo action st)
            else
              match getBlockElement targetBlockId st with
              | None =>
                  (clearAllRedoStacksIfUndo action,
                   notify ("Cannot " +:+ actionName action +:+ ": Block no longer exists.")
                     "error" st)
              | Some targetBlockElement =>
                  if strictEq currentFocusedBlockId (Some targetBlockId)
                     && bool_decide (contentEditable targetBlockElement = "true")
                  then
                    match perform action targetBlockId (history st) with
                    | (Throw e, h) => (Throw e, withHistory h st)
                    | (Normal None, h) => (Normal tt, withHistory h st)
                    | (Normal (Some stateToApply), h) =>
                        let st := withHistory h st in
                        let st :=
                          withBlocks
                            (<[targetBlockId :=
                                 setInnerHTML (toHTML (content stateToApply))
                                   targetBlockElement]> (blocks st)) st in
                        (Normal tt,
                         (sendSpecificBlockUpdate targetBlockId
                            (content stateToApply) st).2)
                    end
                  else if isBlockLockedByOther targetBlockId st then
                    (clearAllRedoStacksIfUndo action,
                     notify
                       ("Cannot " +:+ actionName action +:+
                        ": Block is locked by another user. Undo/Redo history for this block may be invalid.")
                       "warning" st)
                  else
                    match perform action targetBlockId (history st) with
                    | (Throw e, h) => (Throw e, withHistory h st)
                    | (Normal None, h) =>
                        (Normal tt, nothingToDo action (withHistory h st))
                    | (Normal (Some stateToApply), h) =>
                        let st := withHistory h st in
                        let st :=
                          withBlocks
                            (<[targetBlockId :=
                                 setInnerHTML (toHTML (content stateToApply))
                                   targetBlockElement]> (blocks st)) st in
                        let st := (send (lock_block (currentDocId st) targetBlockId) st).2 in
                        let st :=
                          (send (update_document (currentDocId st) targetBlockId
                                   (content stateToApply)) st).2 in
                        let st := (send (unlock_block (currentDocId st) targetBlockId) st).2 in
                        (Normal tt,
                         match action with
                         | undoAction =>
                             withHistory
                               (clearBlockHistory targetBlockId (history st)).2 st
                         | redoAction => st
                         end)
                    end
              end
        end
    end.

(** [!currentDocId || String(payload.document_id) !== String(currentDocId)],
    the guard at the head of the two handlers of server events;
    [document_id] is [String(payload.document_id)]. *)
Definition otherDocument (document_id : string) (st : state) : bool :=
  negb (truthy (currentDocId st))
  || bool_decide (Some document_id ≠ currentDocId st).

(** The [metadata] of a [document_updated] payload, as far as it changes
    the element: [style_classes] by its class names (none when absent),
    [level] as a number. *)
Record metadata := Metadata {
  md_block_id : option string;
  md_block_type : option string;
  md_level : option nat;
  md_style_classes : list string
}.

Record updatePayload := UpdatePayload {
  up_document_id : string;
  up_block_id : string;
  up_content_html : string;
  up_metadata : metadata
}.

(** [tagName.match(/^H([1-6])$/)] *)
Definition headingLevel (tag : string) : option nat :=
  if bool_decide (tag = "H1") then Some 1
  else if bool_decide (tag = "H2") then Some 2
  else if bool_decide (tag = "H3") then Some 3
  else if bool_decide (tag = "H4") then Some 4
  else if bool_decide (tag = "H5") then Some 5
  else if bool_decide (tag = "H6") then Some 6
  else None.

(** The heading that [blockActions.replaceBlockElement] puts in the place
    of the block, by [createBlockElement]. *)
Definition createHeading (level : nat) (styleClasses : list string)
    (content : string) : element :=
  Element ("H" +:+ pretty level) None (Some "heading") None "true"
    (if styleClasses is [] then ["default-heading"] else styleClasses)
    "" content.

(** [handleRemoteUpdate(payload)].  The selection, the alt text and the
    metadata cache are not represented.  In the heading branch,
    [blockActions.replaceBlockElement] puts the new heading in the place
    of the block and then calls [addBlockActionListeners], which no
    module declares: the [ReferenceError] of that call is not
    represented, the result is the page as it is then. *)
Definition handleRemoteUpdate (payload : updatePayload) (st : state) : state :=
  if otherDocument (up_document_id payload) st then st
  else
    let blockId := up_block_id payload in
    let st := withHistory (clearBlockHistory blockId (history st)).2 st in
    if strictEq (Some blockId) (currentBlockId (typingState st)) then st
    else
      match getBlockElement blockId st with
      | None => st
      | Some block =>
          let newMetadata := up_metadata payload in
          let block :=
            Element (tagName block) (id block) (blockType block)
              (parentBlockId block) (contentEditable block)
              (md_style_classes newMetadata) (title block)
              (up_content_html payload) in
          match md_level newMetadata with
          | Some (S _ as level) =>
              if bool_decide (md_block_type newMetadata = Some "heading"
                              ∧ headingLevel (tagName block) ≠ Some level)
              then
                let newId :=
                  if truthy (md_block_id newMetadata)
                  then default blockId (md_block_id newMetadata) else blockId in
                withBlocks
                  (<[newId := createHeading level (md_style_classes newMetadata)
                                (up_content_html payload)]>
                     (delete blockId (blocks st))) st
              else withBlocks (<[blockId := block]> (blocks st)) st
          | _ => withBlocks (<[blockId := block]> (blocks st)) st
          end
      end.

Record lockPayload := LockPayload {
  lp_document_id : string;
  lp_block_id : string;
  locked_by : option string;
  unlocked_by : option string
}.

(** [handleLockUpdate(type, payload)] *)
Definition handleLockUpdate (type : string) (payload : lockPayload)
    (st : state) : state :=
  if otherDocument (lp_document_id payload) st then st
  else
    match getBlockElement (lp_block_id payload) st with
    | None => st
    | Some block =>
        let isOwnLockEvent :=
          strictEq (locked_by payload) (currentUsername (ws st))
          || strictEq (unlocked_by payload) (currentUsername (ws st)) in
        let blockId := lp_block_id payload in
        if bool_decide (type = "block_locked") then
          if negb isOwnLockEvent then
            let st := withHistory (clearBlockHistory blockId (history st)).2 st in
            let st := setBlock blockId (applyLockStyle (locked_by payload) block) st in
            dropLock blockId st
          else
            let st := setBlock blockId (removeLockStyle block) st in
            trackLock blockId st
        else if bool_decide (type = "block_unlocked") then
          let st := setBlock blockId (removeLockStyle block) st in
          dropLock blockId st
        else if bool_decide (type = "lock_denied") then
          let st := withHistory (clearBlockHistory blockId (history st)).2 st in
          let st := setBlock blockId (applyLockStyle (locked_by payload) block) st in
          dropLock blockId st
        else st
    end.

(** [notifyExternalChange(blockId)], which the toolbar calls after it has
    changed the content of a block.  When [pushState] raises, the call
    ends there: the result is the page as it is then. *)
Definition notifyExternalChange (blockId : string) (st : state) : state :=
  match getBlockElement blockId st with
  | None => st
  | Some block =>
      if bool_decide (contentEditable block = "true") then
        match pushState blockId (Html (innerHTML block)) (history st) with
        | (Throw _, h) => withHistory h st
        | (Normal _, h) =>
            (sendSpecificBlockUpdate blockId (Html (innerHTML block))
               (withHistory h st)).2
        end
      else st
  end.







End Editor.

(** ** block_actions.js *)

Module BlockActions.
Import Js Editor.

(** [handleRemoteBlockDeleted(payload)].  The metadata it reads is built
    from the attributes of the element, its cache entry having just been
    removed; under a name that the cache, a plain object, inherits,
    [getBlockMetadata] finds the inherited value instead, which has no
    [block_type] and no [parent_block_id].  The elements of the page have
    distinct [id]s.  The history of the block is not touched. *)
Definition handleRemoteBlockDeleted (document_id block_id : string)
    (st : Editor.state) : Editor.state :=
  if negb (truthy (currentDocId st))
     || bool_decide (Some document_id ≠ currentDocId st)
  then st
  else
    match getBlockElement block_id st with
    | None => st
    | Some blockElement =>
        let cached := bool_decide (is_Some (JsObject.inherited block_id)) in
        let block_type :=
          if truthy (blockType blockElement)
          then default "text" (blockType blockElement) else "text" in
        let parent_block_id :=
          if negb cached
             && bool_decide (block_type = "table-cell" ∨ block_type = "table-options"
                             ∨ tagName blockElement = "TD"
                             ∨ tagName blockElement = "TH")
          then parentBlockId blockElement else None in
        let parentId :=
          if truthy parent_block_id then default block_id parent_block_id
          else block_id in
        let remaining := delete block_id (blocks st) in
        if cached
           || bool_decide (block_type ≠ "table-cell" ∧ block_type ≠ "table-options")
        then
          withBlocks
            (filter (λ kv, parentBlockId kv.2 ≠ Some parentId
                           ∧ id kv.2 ≠ Some parentId) remaining) st
        else withBlocks remaining st
    end.

(** A cell of a table in the page, by its [data-] attributes. *)
Record td := Td {
  td_blockId : option string;
  td_rowIndex : option string;
  td_colIndex : option string;
  td_parentBlockId : option string;
  td_contentEditable : string;
  td_innerHTML : string
}.

(** A [<table>]: the widths of the [<col>]s of its [<colgroup>] and the
    rows of its [<tbody>], each [None] when the child is not there. *)
Record table := Table {
  colgroup : option (list cssWidth);
  tbody : option (list (list td))
}.

(** The identifier [t], a statement of its own after [rows[r][c] = cell]
    in the callback below.  No module declares it.  In the browser it
    still resolves when an element of the page is named [t]: the table of
    the call has the id [tableId], under which it was found or with which
    it was made and put in the page, so [t] is that table when [tableId]
    is [t].  The page is taken to have nothing else of that name, so that
    for any other [tableId] evaluating [t] raises. *)
Definition t (tableId : string) : completion unit :=
  if bool_decide (tableId = "t") then Normal tt else Throw ReferenceError.

(** The local variables of the [forEach] over the cells. *)
Record grouping := Grouping {
  rows : gmap Z (gmap Z td);
  maxCol : Z;
  maxRow : Z
}.

(** The callback of [cellElements.forEach]. *)
Definition groupCell (tableId : string) (acc : grouping) (cell : td) :
    completion grouping :=
  match parseInt (td_rowIndex cell), parseInt (td_colIndex cell) with
  | Some r, Some c =>
      let rows' := <[r := <[c := cell]> (default ∅ (rows acc !! r))]> (rows acc) in
      match t tableId with
      | Throw e => Throw e
      | Normal _ =>
          Normal (Grouping rows' (Z.max (maxCol acc) c) (Z.max (maxRow acc) r))
      end
  | _, _ => Normal acc
  end.

Fixpoint forEach {A S : Type} (f : S → A → completion S) (l : list A)
    (acc : S) : completion S :=
  match l with
  | [] => Normal acc
  | x :: l' =>
      match f acc x with
      | Normal acc' => forEach f l' acc'
      | Throw e => Throw e
      end
  end.

(** A cell whose two indices are numbers, which the callback does not
    skip. *)
Definition indexed (cell : td) : Prop :=
  is_Some (parseInt (td_rowIndex cell)) ∧ is_Some (parseInt (td_colIndex cell)).

#[global] Instance indexed_dec cell : Decision (indexed cell).
Proof. unfold indexed. apply _. Defined.

(** The cell made for a position that has none. *)
Definition placeholder (tableId : string) (rIndex cIndex : Z) : td :=
  Td None (Some (pretty rIndex)) (Some (pretty cIndex)) (Some tableId) "true" " ".

(** [/^[a-zA-Z0-9%. -]+$/] *)
Definition isSafeChar (c : ascii) : bool :=
  let n := nat_of_ascii c in
  bool_decide (97 ≤ n ≤ 122 ∨ 65 ≤ n ≤ 90 ∨ 48 ≤ n ≤ 57
               ∨ c = "%"%char ∨ c = "."%char ∨ c = " "%char ∨ c = "-"%char).

Definition isSafeWidth (s : string) : bool :=
  bool_decide (s ≠ "") && forallb isSafeChar (list_ascii_of_string s).

(** The width given to column [i] when the [<colgroup>] is rebuilt;
    [entry] is [colWidths[i]]. *)
Definition colWidth (entry : option json) : cssWidth :=
  let width :=
    match entry with
    | Some v => if jsTruthy v then v else JStr "auto"
    | None => JStr "auto"
    end in
  Verbatim (if isSafeWidth (toString width) then width else JStr "auto").

(** [reassembleTable(tableId)], given what it finds in the page:
    [tableElement] is the element with that id, [cellElements] the cells
    of the table in document order, [colWidths] the array
    [options?.columns || []].  The result is the table as the call leaves
    it. *)
Definition reassembleTable (tableId : string) (tableElement : option table)
    (cellElements : list td) (colWidths : list json) :
    completion unit * option table :=
  let tableElement :=
    match tableElement with
    | Some table => Some table
    | None => if cellElements is [] then None else Some (Table None None)
    end in
  match tableElement with
  | None => (Normal tt, None)
  | Some table =>
      let cols := default [] (colgroup table) in
      match forEach (groupCell tableId) cellElements (Grouping ∅ (-1) (-1)) with
      | Throw e => (Throw e, Some (Table (Some cols) None))
      | Normal g =>
          let numCols := (maxCol g + 1)%Z in
          let numRows := (maxRow g + 1)%Z in
          let body :=
            (λ rIndex,
               (λ cIndex,
                  match rows g !! rIndex ≫= (λ row, row !! cIndex) with
                  | Some cell => cell
                  | None => placeholder tableId rIndex cIndex
                  end) <$> seqZ 0 numCols) <$> seqZ 0 numRows in
          let cols :=
            (λ i, colWidth (colWidths !! Z.to_nat i)) <$> seqZ 0 numCols in
          (Normal tt, Some (Table (Some cols) (Some body)))
      end
  end.

End BlockActions.

(** ** table_actions.js *)

Module TableActions.
Import Js BlockActions.

Definition MIN_COL_WIDTH : Q := 30.
Definition DEFAULT_COL_WIDTH : Q := 100.

(** The body of [colWidths.forEach] in [handleRemoteOptionsUpdated]: the
    number put in [`${safeWidth}px`]. *)
Definition safeWidth (width : json) : number :=
  match width with
  | JStr s =>
      if endsWith "px" s then
        match parseFloat s with
        | NaN => Finite DEFAULT_COL_WIDTH
        | pxVal => if geq pxVal MIN_COL_WIDTH then pxVal else Finite MIN_COL_WIDTH
        end
      else Finite DEFAULT_COL_WIDTH
  | _ => Finite DEFAULT_COL_WIDTH
  end.

(** [options.columns]; [None] is [undefined], a [TypeError] is raised on
    [null]. *)
Definition columnsOf (options : json) : completion (option json) :=
  match options with
  | JNull => Throw TypeError
  | JObj props => Normal (JsObject.get "columns" props)
  | _ => Normal None
  end.

(** What [col.style.width] holds after [col.style.width = `${n}px`] on
    a new [<col>]: CSS takes a finite number of pixels that is not
    negative, and drops any other declaration, which leaves the width
    empty ([None]).  The number is kept as it is assigned: the digits
    with which a browser writes it back are not represented. *)
Definition styleWidth (n : number) : option number :=
  match n with
  | Finite q => if Qle_bool 0 q then Some n else None
  | _ => None
  end.

(** The first step of [addResizeHandles], on one [<col>] of the
    [<colgroup>] that the handler below has just filled: the width that
    the step leaves in the style.  A width that is there ends in [px] and
    reads back as a number; an empty one gets the default. *)
Definition ensurePixelWidth (width : option number) : number :=
  let currentColWidth :=
    match width with
    | Some NaN | None => Finite DEFAULT_COL_WIDTH
    | Some n => n
    end in
  if geq currentColWidth MIN_COL_WIDTH then currentColWidth
  else Finite MIN_COL_WIDTH.

(** [handleRemoteOptionsUpdated(payload)], given the open document, the
    table with the id of the payload and [parsed], the result of
    [JSON.parse(payload.options_json)] ([None] when it raises).  The
    [try] of the handler catches what is raised.  [addResizeHandles]
    comes in by what it does to the widths of the columns;
    [setTableWidthFromCols] then finds them all in pixels and at or above
    the minimum, and leaves them.  The handles themselves and the width
    of the table are not represented. *)
Definition handleRemoteOptionsUpdated (currentDocId : option string)
    (document_id : string) (parsed : option json)
    (tableElement : option table) : option table :=
  if negb (truthy currentDocId) || bool_decide (Some document_id ≠ currentDocId)
  then tableElement
  else
    match tableElement with
    | None => None
    | Some table =>
        match parsed with
        | None => Some table
        | Some options =>
            match columnsOf options with
            | Throw _ => Some table
            | Normal (Some (JArr colWidths)) =>
                Some (Table
                        (Some ((λ width,
                                  Pixels (ensurePixelWidth (styleWidth (safeWidth width))))
                                 <$> colWidths))
                        (tbody table))
            | Normal _ => Some (Table (Some []) (tbody table))
            end
        end
    end.

End TableActions.

(** ** The page as a whole *)

Module Session.
Import Js UndoRedo WebSocket Editor BlockActions.

(** What can happen to the page: the events of the editor container, the
    two timers, the events of the socket and the messages of the server
    that the modules above handle.  [Typed] is the browser changing the
    content of a block, which it does before it dispatches the input
    event. *)
Inductive event :=
| Typed (blockId html : string)
| Input (target : option string)
| IdleTimeout (timer : idleTimer)
| Focus (target : option string)
| Blur (target : option string)
| BlurTimeout (blockIdLosingFocus : string) (newlyFocusedBlockId : option string)
| KeyDown (ctrlKey : bool) (key : string)
| ExternalChange (blockId : string)
| RemoteUpdate (payload : updatePayload)
| LockUpdate (type : string) (payload : lockPayload)
| RemoteBlockDeleted (document_id block_id : string)
| Connect (username : option string)
| SocketOpen
| SocketClose.

Definition handle (st : Editor.state) (ev : event) : Editor.state :=
  match ev with
  | Typed blockId html => typed blockId html st
  | Input target => handleBlockInput target st
  | IdleTimeout timer => idleTimeout timer st
  | Focus target => handleBlockFocus target st
  | Blur target => handleBlockBlur target st
  | BlurTimeout blockIdLosingFocus newlyFocusedBlockId =>
      blurTimeout blockIdLosingFocus newlyFocusedBlockId st
  | KeyDown ctrlKey key => (handleKeyDown ctrlKey key st).2
  | ExternalChange blockId => notifyExternalChange blockId st
  | RemoteUpdate payload => handleRemoteUpdate payload st
  | LockUpdate type payload => handleLockUpdate type payload st
  | RemoteBlockDeleted document_id block_id =>
      handleRemoteBlockDeleted document_id block_id st
  | Connect username => withWs (connectWebSocket username (ws st)) st
  | SocketOpen => withWs (onopen (ws st)) st
  | SocketClose => withWs (onclose (ws st)) st
  end.

Definition handleAll (events : list event) (st : Editor.state) : Editor.state :=
  fold_left handle events st.


Definition isClose (ev : event) : bool :=
  if ev is SocketClose then true else false.


End Session.

(** ** main.js *)

Module Main.
Import Js WebSocket.

(** [s.trim()], for the white space of ASCII. *)
Definition trim (s : string) : string :=
  string_of_list_ascii
    (reverse (skipWhiteSpace (reverse (skipWhiteSpace (list_ascii_of_string s))))).

(** [handleSetUsername()], given the value of the username field.
    [ui.js] exports no [showNotification], so the call made for an empty
    name raises a [TypeError]; [ui.setUsername] is the effect
    [SetUsername]. *)
Definition handleSetUsername (value : string) (st : WebSocket.state) :
    completion unit * WebSocket.state :=
  let username := trim value in
  if negb (truthy (Some username)) then (Throw TypeError, st)
  else
    (Normal tt,
     connectWebSocket (Some username) (emit (SetUsername (Some username)) st)).

End Main.

(** * Properties *)

(** ** Arrays and objects *)

Module JsFacts.
Import Js.

Lemma lastOr_snoc {A} (d : A) arr x : lastOr d (arr ++ [x]) = x.
Proof. unfold lastOr. by rewrite last_snoc. Qed.

Lemma snoc_removelast {A} (d : A) arr :
  arr ≠ [] → removelast arr ++ [lastOr d arr] = arr.
Proof.
  intros Hne. destruct (exists_last Hne) as (front & x & ->).
  by rewrite removelast_last, lastOr_snoc.
Qed.

Lemma length_removelast {A} (arr : list A) :
  length (removelast arr) = pred (length arr).
Proof.
  destruct arr as [|a arr] using rev_ind; [done|].
  rewrite removelast_last, length_app. simpl. lia.
Qed.

End JsFacts.

Module JsObjectFacts.
Import JsObject.
Section Obj.
Context {V : Type}.
Implicit Types (o : list (string * V)) (k : string) (v : V).

Lemma get_set_eq k v o : get k (set k v o) = Some v.
Proof.
  induction o as [|[k' v'] o IH]; simpl.
  - by rewrite decide_True.
  - destruct (decide (k = k')) as [->|Hne]; simpl.
    + by rewrite decide_True.
    + by rewrite decide_False.
Qed.

Lemma get_set_ne k k' v o : k ≠ k' → get k' (set k v o) = get k' o.
Proof.
  intros Hne. induction o as [|[k0 v0] o IH]; simpl.
  - by rewrite decide_False.
  - destruct (decide (k = k0)) as [->|Hne0]; simpl.
    + by rewrite !decide_False.
    + by rewrite IH.
Qed.

Lemma set_id k v o : get k o = Some v → set k v o = o.
Proof.
  induction o as [|[k' v'] o IH]; simpl; [done|].
  destruct (decide (k = k')) as [->|Hne]; [congruence|].
  intros Hget. by rewrite IH.
Qed.

Lemma set_set k v w o : set k v (set k w o) = set k v o.
Proof.
  induction o as [|[k' v'] o IH]; simpl.
  - by rewrite decide_True.
  - destruct (decide (k = k')) as [->|Hne]; simpl.
    + by rewrite decide_True.
    + by rewrite decide_False, IH.
Qed.

End Obj.
End JsObjectFacts.

(** ** The history of a block *)

Module UndoRedoFacts.
Import Js JsFacts JsObject JsObjectFacts UndoRedo.

Ltac js_unfold :=
  unfold pushState, undo, redo, initStack, clearBlockHistory, clearStacks,
    undoEntry, redoEntry, asArray, setUndo, setRedo,
    mbind, M_bind, bind, mret, M_ret, ret, throw.

(** What a key gives in one of the two objects. *)

Lemma lookup_own b o arr : get b o = Some arr → lookup b o = Some (Array arr).
Proof. unfold lookup. by intros ->. Qed.

Lemma lookup_absent b o : get b o = None → lookup b o = Alien <$> inherited b.
Proof. unfold lookup. by intros ->. Qed.

Lemma lookup_set_eq b arr o : lookup b (set b arr o) = Some (Array arr).
Proof. apply lookup_own, get_set_eq. Qed.

Lemma lookup_None b o : lookup b o = None → get b o = None ∧ inherited b = None.
Proof. unfold lookup. destruct (get b o); [done|]. by destruct (inherited b). Qed.

Lemma lookup_ordinary b o : inherited b = None → lookup b o = Array <$> get b o.
Proof. unfold lookup. intros ->. by destruct (get b o). Qed.

Lemma pushState_eq b s st :
  pushState b s st =
    match get b (undoStacks st) with
    | Some [] =>
        (Normal tt, Stacks (set b [s] (undoStacks st)) (set b [] (redoStacks st)))
    | Some u =>
        (Normal tt,
         if decide (lastOr Undefined u = s) then st
         else Stacks
                (set b (if decide (MAX_HISTORY < length (u ++ [s]))
                        then tail (u ++ [s]) else u ++ [s]) (undoStacks st))
                (match lookup b (redoStacks st) ≫= lengthOf with
                 | Some (S _) => set b [] (redoStacks st)
                 | _ => redoStacks st
                 end))
    | None =>
        match inherited b with
        | None =>
            (Normal tt,
             Stacks (set b [s] (undoStacks st)) (set b [] (redoStacks st)))
        | Some len =>
            (if decide (len = Some 0 ∨ s ≠ Undefined)
             then Throw TypeError else Normal tt, st)
        end
    end.
Proof.
  js_unfold. destruct st as [U R]; simpl.
  destruct (get b U) as [u|] eqn:HU; simpl.
  - rewrite (lookup_own _ _ _ HU); simpl. rewrite (lookup_own _ _ _ HU); simpl.
    destruct u as [|x u]; [done|].
    rewrite decide_False by done.
    destruct (decide (lastOr Undefined (x :: u) = s)) as [Heq|Hne].
    + by rewrite decide_False by (intros H; apply H, Heq).
    + rewrite decide_True by done.
      destruct (decide (MAX_HISTORY < length ((x :: u) ++ [s]))); simpl;
        rewrite ?set_set; by destruct (option_bind _ _ _ _) as [[|m]|].
  - rewrite (lookup_absent _ _ HU).
    destruct (inherited b) as [len|] eqn:Hb; simpl.
    + rewrite (lookup_absent _ _ HU), Hb; simpl.
      destruct (decide (len = Some 0)) as [->|Hlen].
      { by rewrite decide_True by by left. }
      destruct (decide (Undefined ≠ s)) as [Hs|Hs].
      * by rewrite decide_True by by right.
      * rewrite decide_False; [done|]. intros [?|?]; [done|]. apply Hs. congruence.
    + rewrite lookup_set_eq; simpl. by rewrite !set_set.
Qed.

Lemma initStack_eq b st :
  initStack b st =
    (Normal tt,
     match lookup b (undoStacks st) with
     | Some _ => st
     | None => Stacks (set b [] (undoStacks st)) (set b [] (redoStacks st))
     end).
Proof. js_unfold. destruct st as [U R]; simpl. by destruct (lookup b U). Qed.

Lemma undo_eq b st :
  undo b st =
    match get b (undoStacks st) with
    | None =>
        match inherited b with
        | Some (Some n) =>
            (if decide (n ≤ 1) then Normal None else Throw TypeError, st)
        | Some None => (Throw TypeError, st)
        | None => (Normal None, st)
        end
    | Some u =>
        if decide (length u ≤ 1) then (Normal None, st)
        else
          let U' := set b (removelast u) (undoStacks st) in
          match get b (redoStacks st) with
          | None => (Throw TypeError, Stacks U' (redoStacks st))
          | Some r =>
              (Normal (Some (Entry b (lastOr Undefined (removelast u)))),
               Stacks U' (set b (r ++ [lastOr Undefined u]) (redoStacks st)))
          end
    end.
Proof.
  js_unfold. destruct st as [U R]; simpl.
  destruct (get b U) as [u|] eqn:HU; simpl.
  - rewrite (lookup_own _ _ _ HU); simpl.
    destruct (decide (length u ≤ 1)) as [Hle|Hgt].
    { by rewrite bool_decide_eq_true_2. }
    rewrite bool_decide_eq_false_2 by done. simpl.
    rewrite (lookup_own _ _ _ HU); simpl. rewrite (lookup_own _ _ _ HU); simpl.
    unfold lookup. destruct (get b R) as [r|]; simpl; [done|].
    by destruct (inherited b).
  - rewrite (lookup_absent _ _ HU).
    destruct (inherited b) as [[n|]|] eqn:Hb; simpl; [| |done].
    + destruct (decide (n ≤ 1)) as [Hle|Hgt].
      { by rewrite bool_decide_eq_true_2. }
      rewrite bool_decide_eq_false_2 by done. simpl.
      rewrite (lookup_absent _ _ HU), Hb; simpl.
      by rewrite (lookup_absent _ _ HU), Hb.
    + rewrite (lookup_absent _ _ HU), Hb; simpl.
      by rewrite (lookup_absent _ _ HU), Hb.
Qed.

Lemma redo_eq b st :
  redo b st =
    match get b (redoStacks st) with
    | None =>
        match inherited b with
        | Some len =>
            (if decide (len = Some 0) then Normal None else Throw TypeError, st)
        | None => (Normal None, st)
        end
    | Some [] => (Normal None, st)
    | Some r =>
        match get b (undoStacks st) with
        | Some u =>
            (Normal (Some (Entry b (lastOr Undefined r))),
             Stacks (set b (u ++ [lastOr Undefined r]) (undoStacks st))
                   (set b (removelast r) (redoStacks st)))
        | None =>
            match inherited b with
            | Some _ =>
                (Throw TypeError,
                 Stacks (undoStacks st) (set b (removelast r) (redoStacks st)))
            | None =>
                (Normal (Some (Entry b Undefined)),
                 Stacks (set b [Undefined] (undoStacks st))
                   (set b [] (redoStacks st)))
            end
        end
    end.
Proof.
  js_unfold. destruct st as [U R]; simpl.
  destruct (get b R) as [[|x r]|] eqn:HR; simpl.
  - by rewrite (lookup_own _ _ _ HR).
  - rewrite (lookup_own _ _ _ HR); simpl.
    destruct (get b U) as [u|] eqn:HU; simpl.
    + rewrite (lookup_own _ _ _ HU); simpl. rewrite (lookup_own _ _ _ HU); simpl.
      rewrite (lookup_own _ _ _ HR); simpl. done.
    + rewrite (lookup_absent _ _ HU).
      destruct (inherited b) as [len|] eqn:Hb; simpl.
      * rewrite (lookup_absent _ _ HU), Hb; simpl.
        by rewrite (lookup_own _ _ _ HR).
      * rewrite !lookup_set_eq; simpl. by rewrite !set_set.
  - rewrite (lookup_absent _ _ HR).
    destruct (inherited b) as [len|] eqn:Hb; simpl; [|done].
    destruct (decide (len = Some 0)); [done|]. simpl.
    assert (is_Some (lookup b U)) as [x ->].
    { unfold lookup. destruct (get b U); [by eexists|]. rewrite Hb. by eexists. }
    simpl. by rewrite (lookup_absent _ _ HR), Hb.
Qed.

Lemma clearBlockHistory_eq b st :
  clearBlockHistory b st =
    (Normal tt,
     Stacks (if lookup b (undoStacks st) is Some _
            then set b [] (undoStacks st) else undoStacks st)
           (if lookup b (redoStacks st) is Some _
            then set b [] (redoStacks st) else redoStacks st)).
Proof.
  js_unfold. destruct st as [U R]; simpl.
  destruct (lookup b U); simpl; by destruct (lookup b R).
Qed.

(** How a block's stacks read after an assignment in the objects. *)

Lemma stackIn_set b b' arr o :
  stackIn b' (set b arr o) = if decide (b = b') then arr else stackIn b' o.
Proof.
  unfold stackIn. destruct (decide (b = b')) as [->|Hne].
  - by rewrite get_set_eq.
  - by rewrite get_set_ne.
Qed.

Lemma stackIn_set_eq b arr o : stackIn b (set b arr o) = arr.
Proof. by rewrite stackIn_set, decide_True. Qed.

Lemma stackIn_set_ne b b' arr o :
  b ≠ b' → stackIn b' (set b arr o) = stackIn b' o.
Proof. intros. by rewrite stackIn_set, decide_False. Qed.

Lemma stackIn_Some b o arr : get b o = Some arr → stackIn b o = arr.
Proof. unfold stackIn. by intros ->. Qed.

Lemma stackIn_None b o : get b o = None → stackIn b o = [].
Proof. unfold stackIn. by intros ->. Qed.

Lemma stackIn_nonempty b o :
  stackIn b o ≠ [] → get b o = Some (stackIn b o).
Proof. unfold stackIn. by destruct (get b o). Qed.

(** *** [pushState] on the two stacks of its block *)

(** The keys on which [pushState] finds an array, or makes one: those
    that have an array of their own, and those that are not a name the
    objects inherit. *)

Lemma pushState_normal b s st :
  inherited b = None ∨ is_Some (get b (undoStacks st)) →
  (pushState b s st).1 = Normal tt.
Proof.
  intros Hb. rewrite pushState_eq.
  destruct (get b (undoStacks st)) as [[|x u]|]; [done|done|].
  destruct Hb as [->|[? ?]]; done.
Qed.

(** On a name that the objects inherit and that has no array of its own,
    [pushState] changes nothing, and raises unless it is given
    [undefined] to compare with the [undefined] it reads. *)
Lemma pushState_inherited b s st len :
  inherited b = Some len → get b (undoStacks st) = None →
  pushState b s st =
    (if decide (len = Some 0 ∨ s ≠ Undefined) then Throw TypeError else Normal tt,
     st).
Proof. intros Hb HU. by rewrite pushState_eq, HU, Hb. Qed.

Lemma pushState_undoStackOf b s st :
  inherited b = None ∨ is_Some (get b (undoStacks st)) →
  undoStackOf b (pushState b s st).2 =
    let u := undoStackOf b st in
    if decide (u = []) then [s]
    else if decide (lastOr Undefined u = s) then u
    else if decide (MAX_HISTORY < length (u ++ [s]))
         then tail (u ++ [s]) else u ++ [s].
Proof.
  intros Hb. rewrite pushState_eq. destruct st as [U R].
  unfold undoStackOf, stackIn; simpl in *.
  destruct (get b U) as [[|x u]|] eqn:HU; simpl.
  - by rewrite get_set_eq.
  - destruct (decide (lastOr Undefined (x :: u) = s)); simpl.
    + by rewrite HU.
    + by rewrite get_set_eq.
  - destruct Hb as [->|[? ?]]; [|done]. simpl. by rewrite get_set_eq.
Qed.

Lemma pushState_redoStackOf b s st :
  inherited b = None ∨ is_Some (get b (undoStacks st)) →
  redoStackOf b (pushState b s st).2 =
    let u := undoStackOf b st in
    if decide (u = []) then []
    else if decide (lastOr Undefined u = s) then redoStackOf b st
    else [].
Proof.
  intros Hb. rewrite pushState_eq. destruct st as [U R].
  unfold undoStackOf, redoStackOf, stackIn; simpl in *.
  destruct (get b U) as [[|x u]|] eqn:HU; simpl.
  - by rewrite get_set_eq.
  - destruct (decide (lastOr Undefined (x :: u) = s)); simpl; [done|].
    unfold lookup. destruct (get b R) as [[|y r]|] eqn:HR; simpl.
    + by rewrite HR.
    + by rewrite get_set_eq.
    + destruct (inherited b) as [[[|m]|]|]; simpl;
        by rewrite ?get_set_eq, ?HR.
  - destruct Hb as [->|[? ?]]; [|done]. simpl. by rewrite get_set_eq.
Qed.

Lemma pushState_other b b' s st :
  b ≠ b' →
  undoStackOf b' (pushState b s st).2 = undoStackOf b' st ∧
  redoStackOf b' (pushState b s st).2 = redoStackOf b' st.
Proof.
  intros Hne. rewrite pushState_eq. destruct st as [U R].
  unfold undoStackOf, redoStackOf; simpl.
  destruct (get b U) as [[|x u]|] eqn:HU; simpl.
  - by rewrite !stackIn_set_ne.
  - destruct (decide (lastOr Undefined (x :: u) = s)); simpl; [done|].
    rewrite stackIn_set_ne by done. split; [done|].
    destruct (lookup b R ≫= lengthOf) as [[|m]|]; try done.
    by rewrite stackIn_set_ne.
  - destruct (inherited b); simpl; [done|]. by rewrite !stackIn_set_ne.
Qed.

(** A call of [pushState] that raises has changed nothing. *)
Lemma pushState_raised b s st e :
  (pushState b s st).1 = Throw e → (pushState b s st).2 = st.
Proof.
  rewrite pushState_eq.
  destruct (get b (undoStacks st)) as [[|x u]|]; [done|done|].
  by destruct (inherited b).
Qed.

(** *** The invariants of the module *)

Lemma length_tail_le {A} (l : list A) n : length l ≤ S n → length (tail l) ≤ n.
Proof. destruct l; simpl; lia. Qed.

Lemma bounded_initial : bounded initial.
Proof. intros b. unfold undoStackOf, redoStackOf, stackIn, MAX_HISTORY; simpl. lia. Qed.

Lemma pushState_bounded b s st : bounded st → bounded (pushState b s st).2.
Proof.
  intros Hst b'. destruct (decide (b = b')) as [<-|Hne].
  - destruct (decide (inherited b = None ∨ is_Some (get b (undoStacks st))))
      as [Hb|Hb]; cycle 1.
    { destruct (inherited b) as [len|] eqn:Hlen; [|destruct Hb; by left].
      destruct (get b (undoStacks st)) eqn:HU; [destruct Hb; by right|].
      rewrite (pushState_inherited b s st len) by done. apply Hst. }
    rewrite pushState_undoStackOf, pushState_redoStackOf by done. simpl.
    specialize (Hst b). destruct (decide (undoStackOf b st = [])) as [Hu|Hu].
    + unfold MAX_HISTORY. simpl. lia.
    + destruct (decide (lastOr Undefined (undoStackOf b st) = s)); [done|].
      destruct (decide (MAX_HISTORY < length (undoStackOf b st ++ [s])))
        as [Hlt|Hge]; simpl.
      * rewrite Nat.add_0_r. apply length_tail_le.
        rewrite length_app; simpl. unfold MAX_HISTORY in *. lia.
      * lia.
  - destruct (pushState_other b b' s st Hne) as [-> ->]. apply Hst.
Qed.

Lemma initStack_stacks b b' st :
  undoStackOf b' (initStack b st).2 = undoStackOf b' st ∧
  redoStackOf b' (initStack b st).2 = redoStackOf b' st ∨
  undoStackOf b' (initStack b st).2 = [] ∧
  redoStackOf b' (initStack b st).2 = [].
Proof.
  rewrite initStack_eq. destruct st as [U R]. unfold undoStackOf, redoStackOf; simpl.
  destruct (lookup b U) eqn:HU; simpl; [by left|].
  rewrite !stackIn_set. destruct (decide (b = b')); [by right|by left].
Qed.

Lemma clearBlockHistory_stacks b b' st :
  undoStackOf b' (clearBlockHistory b st).2 =
    (if decide (b = b') then [] else undoStackOf b' st) ∧
  redoStackOf b' (clearBlockHistory b st).2 =
    (if decide (b = b') then [] else redoStackOf b' st).
Proof.
  rewrite clearBlockHistory_eq. destruct st as [U R].
  unfold undoStackOf, redoStackOf; simpl. split.
  - destruct (lookup b U) eqn:HU.
    + by rewrite stackIn_set.
    + apply lookup_None in HU as [HU _].
      destruct (decide (b = b')) as [<-|]; [by apply stackIn_None|done].
  - destruct (lookup b R) eqn:HR.
    + by rewrite stackIn_set.
    + apply lookup_None in HR as [HR _].
      destruct (decide (b = b')) as [<-|]; [by apply stackIn_None|done].
Qed.

Lemma undo_bounded b st : bounded st → bounded (undo b st).2.
Proof.
  intros Hst b'. rewrite undo_eq. destruct st as [U R].
  specialize (Hst b'). unfold undoStackOf, redoStackOf in *; simpl in *.
  destruct (get b U) as [u|] eqn:HU; simpl;
    [|by destruct (inherited b) as [[m|]|]].
  destruct (decide (length u ≤ 1)); simpl; [done|].
  destruct (decide (b = b')) as [<-|Hne].
  - rewrite (stackIn_Some _ _ _ HU) in Hst.
    destruct (get b R) as [r|] eqn:HR; simpl.
    + rewrite !stackIn_set_eq, (stackIn_Some _ _ _ HR) in *.
      rewrite length_app, length_removelast; simpl. lia.
    + rewrite stackIn_set_eq, length_removelast. lia.
  - destruct (get b R) as [r|] eqn:HR; simpl;
      by rewrite ?stackIn_set_ne by done.
Qed.

Lemma redo_bounded b st : bounded st → bounded (redo b st).2.
Proof.
  intros Hst b'. rewrite redo_eq. destruct st as [U R].
  specialize (Hst b'). unfold undoStackOf, redoStackOf in *; simpl in *.
  destruct (get b R) as [[|x r]|] eqn:HR; simpl;
    [done| |by destruct (inherited b)].
  destruct (decide (b = b')) as [<-|Hne].
  - rewrite (stackIn_Some _ _ _ HR) in Hst.
    pose proof (length_removelast (x :: r)) as Hlen.
    destruct (get b U) as [u|] eqn:HU; simpl.
    + rewrite !stackIn_set_eq. rewrite (stackIn_Some _ _ _ HU) in Hst.
      rewrite length_app; simpl in *. lia.
    + destruct (inherited b); simpl; rewrite ?stackIn_set_eq.
      * rewrite (stackIn_None _ _ HU). simpl in *. lia.
      * unfold MAX_HISTORY. simpl. lia.
  - destruct (get b U) as [u|] eqn:HU; simpl;
      [|destruct (inherited b); simpl]; by rewrite ?stackIn_set_ne by done.
Qed.

Lemma exec_bounded st c : bounded st → bounded (exec st c).
Proof.
  intros Hst. destruct c as [b|b s|b|b|b|]; simpl.
  - intros b'. destruct (initStack_stacks b b' st) as [[-> ->]|[-> ->]].
    + apply Hst.
    + unfold MAX_HISTORY; simpl; lia.
  - by apply pushState_bounded.
  - by apply undo_bounded.
  - by apply redo_bounded.
  - intros b'. destruct (clearBlockHistory_stacks b b' st) as [-> ->].
    case_decide; [unfold MAX_HISTORY; simpl; lia|apply Hst].
  - apply bounded_initial.
Qed.

Lemma run_bounded calls st : bounded st → bounded (run calls st).
Proof.
  revert st. induction calls as [|c calls IH]; intros st Hst; simpl; [done|].
  by apply IH, exec_bounded.
Qed.

Lemma is_Some_get_set {V} b b' (v : V) o :
  is_Some (get b' (set b v o)) ↔ b = b' ∨ is_Some (get b' o).
Proof.
  destruct (decide (b = b')) as [<-|Hne].
  - rewrite get_set_eq. split; [by left|by eauto].
  - rewrite get_set_ne by done. split; [by right|by intros [?|?]].
Qed.

Lemma paired_initial : paired initial.
Proof. intros b. split; intros [x Hx]; done. Qed.

Lemma or_iff_compat_same (P Q R : Prop) : (Q ↔ R) → (P ∨ Q ↔ P ∨ R).
Proof. tauto. Qed.

Lemma exec_paired st c : paired st → paired (exec st c).
Proof.
  intros Hst. destruct st as [U R]. unfold paired in *; simpl in Hst.
  destruct c as [b|b s|b|b|b|]; simpl; intros b'.
  - rewrite initStack_eq; simpl. destruct (lookup b U) eqn:HU; simpl; [apply Hst|].
    rewrite !is_Some_get_set. apply or_iff_compat_same, Hst.
  - rewrite pushState_eq; simpl.
    destruct (get b U) as [[|x u]|] eqn:HU; simpl;
      [rewrite !is_Some_get_set; apply or_iff_compat_same, Hst| |
       destruct (inherited b); simpl;
         [apply Hst|rewrite !is_Some_get_set; apply or_iff_compat_same, Hst]].
    destruct (decide (lastOr Undefined (x :: u) = s)); simpl; [apply Hst|].
    assert (is_Some (get b R)) as [r Hr] by (apply Hst; by rewrite HU).
    rewrite is_Some_get_set, (lookup_own _ _ _ Hr). simpl.
    assert (b = b' ∨ is_Some (get b' U) ↔ is_Some (get b' R)) as Hiff.
    { rewrite <- Hst. split; [|by right]. intros [<-|]; [by rewrite HU|done]. }
    destruct r; [done|]. simpl. rewrite is_Some_get_set, Hiff.
    split; [by right|]. intros [<-|]; [by rewrite Hr|done].
  - rewrite undo_eq; simpl.
    destruct (get b U) as [u|] eqn:HU; simpl;
      [|destruct (inherited b) as [[m|]|]; apply Hst].
    destruct (decide (length u ≤ 1)); simpl; [apply Hst|].
    assert (is_Some (get b R)) as [r Hr] by (apply Hst; by rewrite HU).
    rewrite Hr; simpl. rewrite !is_Some_get_set. apply or_iff_compat_same, Hst.
  - rewrite redo_eq; simpl.
    destruct (get b R) as [[|y r]|] eqn:HR; simpl;
      [apply Hst| |destruct (inherited b); apply Hst].
    assert (is_Some (get b U)) as [u HU] by (apply Hst; by rewrite HR).
    rewrite HU. simpl.
    rewrite !is_Some_get_set; apply or_iff_compat_same, Hst.
  - rewrite clearBlockHistory_eq; simpl.
    assert (is_Some (lookup b U) ↔ is_Some (lookup b R)) as Hboth.
    { unfold lookup. specialize (Hst b). destruct (get b U), (get b R);
        try done.
      - destruct Hst as [[? ?] _]; [by eexists|done].
      - destruct Hst as [_ [? ?]]; [by eexists|done]. }
    destruct (lookup b U) as [x|] eqn:HU.
    + destruct Hboth as [[y ->] _]; [by eexists|].
      rewrite !is_Some_get_set. apply or_iff_compat_same, Hst.
    + destruct (lookup b R) as [y|] eqn:HR; [|apply Hst].
      destruct Hboth as [_ [? ?]]; [by eexists|done].
  - split; intros [x Hx]; done.
Qed.

Lemma run_paired calls st : paired st → paired (run calls st).
Proof.
  revert st. induction calls as [|c calls IH]; intros st Hst; simpl; [done|].
  by apply IH, exec_paired.
Qed.

Lemma last_lastOr {A} (d x : A) arr :
  arr ≠ [] → last arr = Some x ↔ lastOr d arr = x.
Proof.
  intros Hne. destruct (exists_last Hne) as (front & y & ->).
  rewrite last_snoc, lastOr_snoc. split; congruence.
Qed.

Lemma tail_snoc {A} (arr : list A) x :
  arr ≠ [] → tail (arr ++ [x]) = tail arr ++ [x].
Proof. by destruct arr. Qed.

(** A push of a state that differs from the top of a stack that is not
    empty. *)
Lemma pushState_changed b s st :
  undoStackOf b st ≠ [] →
  last (undoStackOf b st) ≠ Some s →
  undoStackOf b (pushState b s st).2 =
    (if decide (length (undoStackOf b st) < MAX_HISTORY)
     then undoStackOf b st ++ [s]
     else tail (undoStackOf b st) ++ [s]) ∧
  redoStackOf b (pushState b s st).2 = [].
Proof.
  intros Hne Htop. assert (lastOr Undefined (undoStackOf b st) ≠ s) as Hlast.
  { intros Heq. by apply Htop, (last_lastOr Undefined). }
  assert (inherited b = None ∨ is_Some (get b (undoStacks st))) as Hb.
  { right. apply stackIn_nonempty in Hne. by eexists. }
  split.
  - rewrite pushState_undoStackOf by done; simpl.
    rewrite !decide_False by done. rewrite length_app; simpl.
    destruct (decide (MAX_HISTORY < length (undoStackOf b st) + 1)).
    + rewrite decide_False by lia. by apply tail_snoc.
    + by rewrite decide_True by lia.
  - rewrite pushState_redoStackOf by done; simpl. by rewrite !decide_False.
Qed.

(** A push of the state that is on top. *)
Lemma pushState_unchanged b s st :
  undoStackOf b st ≠ [] →
  last (undoStackOf b st) = Some s →
  pushState b s st = (Normal tt, st).
Proof.
  intros Hne Htop%(last_lastOr Undefined); [|done].
  rewrite pushState_eq. apply stackIn_nonempty in Hne as Hget.
  unfold undoStackOf in *. rewrite Hget.
  destruct (stackIn b (undoStacks st)); [done|]. by rewrite decide_True.
Qed.

Lemma undo_null b st :
  inherited b = None ∨ is_Some (get b (undoStacks st)) →
  length (undoStackOf b st) ≤ 1 → undo b st = (Normal None, st).
Proof.
  unfold undoStackOf, stackIn. rewrite undo_eq.
  destruct (get b (undoStacks st)); simpl.
  - intros. by rewrite decide_True.
  - by intros [->|[? ?]].
Qed.

(** After [clearBlockHistory] the block has nothing to undo, whatever its
    id is: a name that the objects inherit has got arrays of its own. *)
Lemma clearBlockHistory_undo b st :
  undo b (clearBlockHistory b st).2 = (Normal None, (clearBlockHistory b st).2).
Proof.
  rewrite clearBlockHistory_eq, undo_eq. cbn [snd undoStacks].
  destruct (lookup b (undoStacks st)) as [x|] eqn:HU.
  - rewrite get_set_eq. by rewrite decide_True by (simpl; lia).
  - apply lookup_None in HU as [-> ->]. done.
Qed.

Lemma clearBlockHistory_clears b st :
  undoStackOf b (clearBlockHistory b st).2 = [] ∧
  redoStackOf b (clearBlockHistory b st).2 = [].
Proof.
  destruct (clearBlockHistory_stacks b b st) as [-> ->].
  by rewrite !decide_True.
Qed.

(** The block that [peekUndoBlockId] or [peekRedoBlockId] names has more
    entries than the minimum. *)
Lemma peekBlockId_Some minLen stacks b :
  peekBlockId minLen stacks = Some b → minLen < length (stackIn b stacks).
Proof.
  unfold peekBlockId.
  assert (∀ keys acc,
    (∀ b, acc.1 = Some b → minLen < length (stackIn b stacks)) →
    ∀ b, (fold_left (peekStep minLen stacks) keys acc).1 = Some b →
         minLen < length (stackIn b stacks)) as Hfold.
  { induction keys as [|k keys IH]; intros acc Hacc b'; simpl; [apply Hacc|].
    apply IH. intros b''. unfold peekStep. case_decide as Hk; simpl.
    - intros [= <-]. apply Hk.
    - apply Hacc. }
  apply Hfold. intros b' [=].
Qed.

End UndoRedoFacts.

(** ** Reconnection *)

Module WebSocketFacts.
Import WebSocket.

Lemma onclose_attempts st :
  reconnectAttempts (onclose st) =
    if decide (reconnectAttempts st < MAX_RECONNECT_ATTEMPTS)%Z
    then (reconnectAttempts st + 1)%Z else reconnectAttempts st.
Proof. unfold onclose; simpl. by case_decide. Qed.

Lemma onclose_effects st :
  effects (onclose st) =
    effects st ++
    ShowWebSocketClosedBanner ::
    if decide (reconnectAttempts st < MAX_RECONNECT_ATTEMPTS)%Z
    then [ShowNotification
            ("Connection lost. Reconnecting... (Attempt "
             +:+ pretty (reconnectAttempts st + 1)%Z +:+ ")") "warning";
          SetTimeout Reconnect (RECONNECT_DELAY * (reconnectAttempts st + 1))]
    else [ShowNotification "Connection lost. Could not reconnect." "error"].
Proof.
  unfold onclose; simpl. case_decide; simpl; by rewrite <- !(assoc_L (++)).
Qed.

Lemma onclose_delays st :
  reconnectDelays (effects (onclose st)) =
    reconnectDelays (effects st) ++
    if decide (reconnectAttempts st < MAX_RECONNECT_ATTEMPTS)%Z
    then [(RECONNECT_DELAY * (reconnectAttempts st + 1))%Z] else [].
Proof.
  rewrite onclose_effects. unfold reconnectDelays. rewrite omap_app.
  by case_decide.
Qed.

(** [n] close events in a row, from a counter between 0 and the
    ceiling. *)
Lemma closes_in_a_row n st :
  (0 ≤ reconnectAttempts st ≤ MAX_RECONNECT_ATTEMPTS)%Z →
  reconnectAttempts (Nat.iter n onclose st) =
    Z.min (reconnectAttempts st + Z.of_nat n) MAX_RECONNECT_ATTEMPTS ∧
  reconnectDelays (effects (Nat.iter n onclose st)) =
    reconnectDelays (effects st) ++
    ((λ k, RECONNECT_DELAY * k)%Z <$>
       seqZ (reconnectAttempts st + 1)
         (Z.min (Z.of_nat n) (MAX_RECONNECT_ATTEMPTS - reconnectAttempts st))).
Proof.
  intros Ha. induction n as [|n [IHa IHd]].
  - simpl. split; [lia|]. rewrite Z.min_l by lia. by rewrite app_nil_r.
  - rewrite Nat.iter_succ, onclose_attempts, onclose_delays, IHa, IHd.
    case_decide as Hlt.
    + split; [lia|]. rewrite <- (assoc_L (++)). f_equal.
      rewrite !Z.min_l by lia. rewrite seqZ_S, fmap_app. simpl.
      do 3 f_equal. lia.
    + split; [lia|]. rewrite app_nil_r. do 3 f_equal. lia.
Qed.

(** A successful connection starts the count again. *)
Lemma onopen_attempts st : reconnectAttempts (onopen st) = 0%Z.
Proof. unfold onopen, sendMessage. simpl. reflexivity. Qed.

Lemma reconnectDelays_snoc es e :
  reconnectDelays (es ++ [e]) =
    reconnectDelays es ++ (if e is SetTimeout Reconnect delay then [delay] else []).
Proof.
  unfold reconnectDelays. rewrite omap_app. simpl. destruct e; try done.
  by destruct cb.
Qed.

Lemma connectWebSocket_delays username st :
  reconnectDelays (effects (connectWebSocket username st)) =
    reconnectDelays (effects st) ∧
  reconnectAttempts (connectWebSocket username st) = reconnectAttempts st.
Proof.
  unfold connectWebSocket, sendMessage.
  destruct (socket st) as [[]|]; try destruct (decide _); simpl;
    by rewrite ?reconnectDelays_snoc, ?app_nil_r.
Qed.

(** What leaves the counter and the scheduled attempts alone: every
    effect but the timer of a reconnection. *)
Lemma emit_quiet e w :
  (∀ delay, e ≠ SetTimeout Reconnect delay) →
  reconnectAttempts (emit e w) = reconnectAttempts w ∧
  reconnectDelays (effects (emit e w)) = reconnectDelays (effects w).
Proof.
  intros He. split; [done|]. simpl. rewrite reconnectDelays_snoc.
  destruct e as [| | | | |[] delay]; rewrite ?app_nil_r; try done.
  by destruct (He delay).
Qed.



End WebSocketFacts.

(** ** Tables *)

Module TableFacts.
Import Js BlockActions TableActions.








End TableFacts.

(** ** The editor *)

Module EditorFacts.
Import Js JsObject UndoRedo UndoRedoFacts WebSocket Editor.


Lemma send_open m st :
  socket (ws st) = Some OPEN →
  send m st = (true, withWs (emit (Send m) (ws st)) st).
Proof. unfold send, sendMessage. by intros ->. Qed.

Lemma send_currentDocId m st : currentDocId (send m st).2 = currentDocId st.
Proof. unfold send. by destruct (sendMessage m (ws st)). Qed.

Lemma otherDocument_false document_id st :
  truthy (currentDocId st) = true →
  currentDocId st = Some document_id →
  otherDocument document_id st = false.
Proof.
  intros Hopen Hdoc. unfold otherDocument. rewrite Hopen; simpl.
  by apply bool_decide_eq_false_2; intros [].
Qed.

Lemma handleRemoteUpdate_history payload st :
  otherDocument (up_document_id payload) st = false →
  history (handleRemoteUpdate payload st) =
    (clearBlockHistory (up_block_id payload) (history st)).2.
Proof.
  unfold handleRemoteUpdate. intros ->.
  repeat case_match; reflexivity.
Qed.

Lemma handleLockUpdate_absent type payload st :
  getBlockElement (lp_block_id payload) st = None →
  handleLockUpdate type payload st = st.
Proof. unfold handleLockUpdate. intros ->. by case_match. Qed.

Lemma handleLockUpdate_locked_history payload st el :
  otherDocument (lp_document_id payload) st = false →
  getBlockElement (lp_block_id payload) st = Some el →
  strictEq (locked_by payload) (currentUsername (ws st)) = false →
  strictEq (unlocked_by payload) (currentUsername (ws st)) = false →
  history (handleLockUpdate "block_locked" payload st) =
    (clearBlockHistory (lp_block_id payload) (history st)).2.
Proof.
  unfold handleLockUpdate. intros -> -> -> ->. reflexivity.
Qed.

Lemma truthy_Some (x : string) : x ≠ "" → truthy (Some x) = true.
Proof. intros. by apply bool_decide_eq_true_2. Qed.

Lemma strictEq_refl (x : string) : strictEq (Some x) (Some x) = true.
Proof. by apply bool_decide_eq_true_2. Qed.


(** A forced update, or one with edits to report, of the focused block
    when it is editable, a document is open and the socket is open. *)
Lemma sendCurrentBlockUpdate_sends force st b el :
  currentBlockId (typingState st) = Some b → b ≠ "" →
  getBlockElement b st = Some el → contentEditable el = "true" →
  truthy (currentDocId st) = true → socket (ws st) = Some OPEN →
  force = true ∨ charCountSinceLastUpdate (typingState st) ≠ 0 →
  sendCurrentBlockUpdate force st =
    resetTyping (Some b)
      (withWs (emit (Send (update_document (currentDocId st) b (Html (innerHTML el))))
                 (ws st)) st).
Proof.
  intros Hb Hne Hel Hedit Hdoc Hopen Hforce. unfold sendCurrentBlockUpdate.
  rewrite Hb, truthy_Some by done. simpl.
  assert (negb force && bool_decide (charCountSinceLastUpdate (typingState st) = 0)
          = false) as ->.
  { destruct Hforce as [->|Hcount]; [done|].
    rewrite (bool_decide_eq_false_2 _ Hcount). apply andb_false_r. }
  rewrite Hel, Hedit. simpl.
  unfold sendSpecificBlockUpdate. rewrite Hdoc, send_open by done. simpl.
  by rewrite Hb.
Qed.

Lemma handleBlockInput_focused st b el :
  currentBlockId (typingState st) = Some b →
  getBlockElement b st = Some el → contentEditable el = "true" →
  inherited b = None ∨ is_Some (get b (undoStacks (history st))) →
  handleBlockInput (Some b) st =
    let st1 := withHistory (pushState b (Html (innerHTML el)) (history st)).2 st in
    let count := S (charCountSinceLastUpdate (typingState st)) in
    if bool_decide (CHAR_UPDATE_THRESHOLD ≤ count)
    then sendCurrentBlockUpdate false (withTyping (Typing (Some b) count None) st1)
    else withTyping
           (Typing (Some b) count (Some (IdleTimer TIME_UPDATE_THRESHOLD_MS b))) st1.
Proof.
  intros Hb Hel Hedit Hkey. unfold handleBlockInput.
  rewrite Hel, Hedit, Hb, strictEq_refl. simpl.
  pose proof (pushState_normal b (Html (innerHTML el)) (history st) Hkey) as Hpush.
  destruct (pushState b (Html (innerHTML el)) (history st)) as [[[]|e] h];
    [|done]. simpl. by rewrite Hb.
Qed.

(** On a block whose id is a name that the history inherits, and that
    has no array of its own yet, the input event is lost: [pushState]
    raises before anything is counted, scheduled or sent. *)
Lemma handleBlockInput_inherited st b el len :
  currentBlockId (typingState st) = Some b →
  getBlockElement b st = Some el → contentEditable el = "true" →
  inherited b = Some len → get b (undoStacks (history st)) = None →
  handleBlockInput (Some b) st = st.
Proof.
  intros Hb Hel Hedit Hlen HU. unfold handleBlockInput.
  rewrite Hel, Hedit, Hb, strictEq_refl. simpl.
  rewrite (pushState_inherited b _ _ len) by done.
  rewrite decide_True by by right. by destruct st.
Qed.

(** The idle timer fires on the block it was set for, still focused and
    with edits to report: the update is sent. *)
Lemma idleTimeout_sends st b el :
  currentBlockId (typingState st) = Some b → b ≠ "" →
  getBlockElement b st = Some el → contentEditable el = "true" →
  truthy (currentDocId st) = true → socket (ws st) = Some OPEN →
  charCountSinceLastUpdate (typingState st) ≠ 0 →
  effects (ws (idleTimeout (IdleTimer TIME_UPDATE_THRESHOLD_MS b) st)) =
    effects (ws st) ++
    [Send (update_document (currentDocId st) b (Html (innerHTML el)))] ∧
  typingState (idleTimeout (IdleTimer TIME_UPDATE_THRESHOLD_MS b) st) =
    Typing (Some b) 0 None.
Proof.
  intros Hb Hne Hel Hedit Hdoc Hopen Hcount. unfold idleTimeout.
  cbn [idleBlockId]. rewrite Hb, strictEq_refl.
  by rewrite (sendCurrentBlockUpdate_sends false st b el) by (done || by right).
Qed.


(** What [undo] and [redo] do on the block that the shortcut has picked. *)

Lemma undo_peeked h target :
  peekUndoBlockId h = Some target → paired h →
  ∃ u r,
    undoStackOf target h = u ∧ redoStackOf target h = r ∧ 1 < length u ∧
    undo target h =
      (Normal (Some (Entry target (lastOr Undefined (removelast u)))),
       Stacks (set target (removelast u) (undoStacks h))
              (set target (r ++ [lastOr Undefined u]) (redoStacks h))).
Proof.
  intros Hpeek%peekBlockId_Some Hpaired.
  assert (stackIn target (undoStacks h) ≠ []) as Hne.
  { intros Heq. rewrite Heq in Hpeek. simpl in Hpeek. lia. }
  apply stackIn_nonempty in Hne as HU.
  assert (is_Some (get target (redoStacks h))) as [r HR]
    by (apply Hpaired; by rewrite HU).
  exists (stackIn target (undoStacks h)), r. split_and!; try done.
  - by apply stackIn_Some.
  - rewrite undo_eq, HU, decide_False by lia. simpl. by rewrite HR.
Qed.

Lemma redo_peeked h target :
  peekRedoBlockId h = Some target → paired h →
  ∃ u r,
    undoStackOf target h = u ∧ redoStackOf target h = r ∧ r ≠ [] ∧
    redo target h =
      (Normal (Some (Entry target (lastOr Undefined r))),
       Stacks (set target (u ++ [lastOr Undefined r]) (undoStacks h))
              (set target (removelast r) (redoStacks h))).
Proof.
  intros Hpeek%peekBlockId_Some Hpaired.
  assert (stackIn target (redoStacks h) ≠ []) as Hne.
  { intros Heq. rewrite Heq in Hpeek. simpl in Hpeek. lia. }
  apply stackIn_nonempty in Hne as HR.
  assert (is_Some (get target (undoStacks h))) as [u HU]
    by (apply Hpaired; by rewrite HR).
  exists u, (stackIn target (redoStacks h)). split_and!; try done.
  - by apply stackIn_Some.
  - rewrite redo_eq, HR, HU. by destruct (stackIn target (redoStacks h)).
Qed.


(** [handleKeyDown] on a shortcut whose target is in the page and is not
    the focused, editable block. *)
Lemma handleKeyDown_off_block st key action target el :
  actionOfKey key = Some action →
  peekTarget action (history st) = Some target →
  target ≠ "" →
  getBlockElement target st = Some el →
  strictEq (currentBlockId (typingState st)) (Some target)
    && bool_decide (contentEditable el = "true") = false →
  handleKeyDown true key st =
    if isBlockLockedByOther target st then
      (clearAllRedoStacksIfUndo action,
       notify
         ("Cannot " +:+ actionName action +:+
          ": Block is locked by another user. Undo/Redo history for this block may be invalid.")
         "warning" st)
    else
      match perform action target (history st) with
      | (Throw e, h) => (Throw e, withHistory h st)
      | (Normal None, h) => (Normal tt, nothingToDo action (withHistory h st))
      | (Normal (Some stateToApply), h) =>
          let st1 :=
            withBlocks
              (<[target := setInnerHTML (toHTML (content stateToApply)) el]>
                 (blocks st)) (withHistory h st) in
          let st2 :=
            (send (unlock_block (currentDocId st) target)
               (send (update_document (currentDocId st) target
                        (content stateToApply))
                  (send (lock_block (currentDocId st) target) st1).2).2).2 in
          (Normal tt,
           match action with
           | undoAction =>
               withHistory (clearBlockHistory target (history st2)).2 st2
           | redoAction => st2
           end)
      end.
Proof.
  intros Hkey Hpeek Hne Hel Hfocus. unfold handleKeyDown. cbn [negb].
  rewrite Hkey, Hpeek, truthy_Some by done. cbn [negb].
  rewrite Hel, Hfocus. destruct (isBlockLockedByOther target st); [done|].
  destruct (perform action target (history st)) as [[[stateToApply|]|e] h];
    try done.
  cbn zeta. rewrite !send_currentDocId. by destruct action.
Qed.

End EditorFacts.

(** ** The page and the reconnection *)

Module SessionFacts.
Import Js UndoRedo WebSocket WebSocketFacts Editor BlockActions.











Lemma notify_quiet text kind st :
  reconnectAttempts (ws (notify text kind st)) = reconnectAttempts (ws st) ∧
  reconnectDelays (effects (ws (notify text kind st))) =
    reconnectDelays (effects (ws st)).
Proof. unfold notify, showNotification. by apply emit_quiet. Qed.








End SessionFacts.

(** ** The design document's statements about the history *)

Import Js JsFacts JsObject JsObjectFacts UndoRedo UndoRedoFacts.

(** C3.  On a block whose undo stack is not empty, [pushState] with the
    state that is already on top changes nothing (neither stack, nor
    anything else in the module); with a different state it appends that
    state to the undo stack, where the bound of [MAX_HISTORY] entries is
    kept by dropping the oldest one, and leaves the redo stack empty. *)
Theorem pushState_only_on_change b s st :
  undoStackOf b st ≠ [] →
  (last (undoStackOf b st) = Some s → pushState b s st = (Normal tt, st)) ∧
  (last (undoStackOf b st) ≠ Some s →
     (pushState b s st).1 = Normal tt ∧
     undoStackOf b (pushState b s st).2 =
       (if decide (length (undoStackOf b st) < MAX_HISTORY)
        then undoStackOf b st ++ [s]
        else tail (undoStackOf b st) ++ [s]) ∧
     last (undoStackOf b (pushState b s st).2) = Some s ∧
     redoStackOf b (pushState b s st).2 = []).
Proof.
  intros Hne. split.
  - intros Htop. by apply pushState_unchanged.
  - intros Htop. destruct (pushState_changed b s st Hne Htop) as [Hundo Hredo].
    split_and!.
    + apply pushState_normal. right. apply stackIn_nonempty in Hne. by eexists.
    + exact Hundo.
    + rewrite Hundo. case_decide; by rewrite last_snoc.
    + exact Hredo.
Qed.

Lemma pushState_only_on_change_witness :
  let st := run [PushState "b1" (Html "a")] initial in
  undoStackOf "b1" st ≠ [] ∧
  pushState "b1" (Html "a") st = (Normal tt, st) ∧
  undoStackOf "b1" (pushState "b1" (Html "ab") st).2 = [Html "a"; Html "ab"].
Proof.
  intros st.
  assert (undoStackOf "b1" st ≠ []) as Hne by (vm_compute; discriminate).
  destruct (pushState_only_on_change "b1" (Html "a") st Hne) as [Hsame _].
  destruct (pushState_only_on_change "b1" (Html "ab") st Hne) as [_ Hnew].
  split_and!.
  - exact Hne.
  - apply Hsame. reflexivity.
  - destruct Hnew as (_ & Hundo & _); [vm_compute; discriminate|].
    rewrite Hundo. reflexivity.
Defined.

(** C8.  Whatever calls are made on the module, in particular whatever
    sequence of [pushState] calls, no undo stack ever holds more than
    [MAX_HISTORY] entries; and a push on a full stack drops the oldest
    entry and keeps the others in their order, under the new one. *)
Theorem undo_stack_bounded :
  (∀ calls b, length (undoStackOf b (run calls initial)) ≤ MAX_HISTORY) ∧
  (∀ st b s,
     length (undoStackOf b st) = MAX_HISTORY →
     last (undoStackOf b st) ≠ Some s →
     undoStackOf b (pushState b s st).2 = tail (undoStackOf b st) ++ [s]).
Proof.
  split.
  - intros calls b.
    pose proof (run_bounded calls initial bounded_initial b). lia.
  - intros st b s Hfull Htop.
    assert (undoStackOf b st ≠ []) as Hne.
    { intros Heq. rewrite Heq in Hfull. discriminate Hfull. }
    destruct (pushState_changed b s st Hne Htop) as [-> _].
    by rewrite decide_False by lia.
Qed.

Lemma undo_stack_bounded_witness :
  let full := Stacks [("b1", replicate MAX_HISTORY (Html "a"))] [("b1", [])] in
  length (undoStackOf "b1" (run [PushState "b1" (Html "a"); PushState "b1" (Html "ab")] initial))
    ≤ MAX_HISTORY ∧
  undoStackOf "b1" (pushState "b1" (Html "z") full).2 =
    replicate (MAX_HISTORY - 1) (Html "a") ++ [Html "z"].
Proof.
  intros full. destruct undo_stack_bounded as [Hbound Hevict]. split.
  - apply Hbound.
  - rewrite (Hevict full "b1" (Html "z")).
    + vm_compute. reflexivity.
    + vm_compute. reflexivity.
    + vm_compute. discriminate.
Defined.

(** C9.  In every state of the module, on a block whose undo stack has
    at least two entries, [redo] just after [undo] returns the state that
    was on top before the undo, and the module is back in the state it was
    in before the undo: both stacks of the block, and of every other block,
    are as they were. *)
Theorem redo_after_undo_restores (calls : list call) b :
  let st := run calls initial in
  2 ≤ length (undoStackOf b st) →
  ∃ top prev st1,
    last (undoStackOf b st) = Some top ∧
    undo b st = (Normal (Some (Entry b prev)), st1) ∧
    redo b st1 = (Normal (Some (Entry b top)), st).
Proof.
  intros st Hlen.
  assert (paired st) as Hpaired by apply run_paired, paired_initial.
  assert (undoStackOf b st ≠ []) as Hne.
  { intros Heq. rewrite Heq in Hlen. simpl in Hlen. lia. }
  apply stackIn_nonempty in Hne as HU.
  assert (is_Some (get b (redoStacks st))) as [r HR]
    by (apply Hpaired; by rewrite HU).
  unfold undoStackOf in *. set (u := stackIn b (undoStacks st)) in *.
  exists (lastOr Undefined u), (lastOr Undefined (removelast u)).
  eexists. split_and!.
  - by apply (last_lastOr Undefined).
  - rewrite undo_eq, HU, decide_False by lia. simpl. by rewrite HR.
  - rewrite redo_eq; simpl. rewrite !get_set_eq.
    destruct (r ++ [lastOr Undefined u]) as [|y r'] eqn:Hr.
    { by destruct r. }
    rewrite <- Hr, lastOr_snoc, removelast_last, !set_set.
    rewrite snoc_removelast by done.
    rewrite (set_id _ _ _ HU), (set_id _ _ _ HR). by destruct st.
Qed.

Lemma redo_after_undo_restores_witness :
  let st := run [PushState "b1" (Html "a"); PushState "b1" (Html "ab")] initial in
  2 ≤ length (undoStackOf "b1" st) ∧
  ∃ top prev st1,
    last (undoStackOf "b1" st) = Some top ∧
    undo "b1" st = (Normal (Some (Entry "b1" prev)), st1) ∧
    redo "b1" st1 = (Normal (Some (Entry "b1" top)), st).
Proof.
  intros st.
  assert (2 ≤ length (undoStackOf "b1" st)) as Hlen by (vm_compute; lia).
  split; [exact Hlen|].
  exact (redo_after_undo_restores
           [PushState "b1" (Html "a"); PushState "b1" (Html "ab")] "b1" Hlen).
Defined.

(** C10.  The two stack objects are plain objects, and [undo] and [redo]
    take what the objects inherit from [Object.prototype] for a stack.
    In the module as it is loaded, [__proto__] has no undo stack and no
    redo stack; yet [undo] and [redo] on it find the prototype of the
    objects under that name, whose [length] is [undefined], go on, and
    raise a [TypeError] at [pop] instead of returning [null]. *)
Theorem undo_redo_raise_on_inherited_name :
  undoStackOf "__proto__" initial = [] ∧
  redoStackOf "__proto__" initial = [] ∧
  undo "__proto__" initial = (Throw TypeError, initial) ∧
  redo "__proto__" initial = (Throw TypeError, initial).
Proof. vm_compute. split_and!; reflexivity. Qed.

(** ** The design document's statements about tables *)

Import BlockActions TableActions TableFacts.

(** C6.  The reassembly of a table of two rows and two columns whose
    cell of row 1, column 0 is missing: instead of a grid with a
    placeholder at that position, the call is aborted by the
    [ReferenceError] of the stray [t] in the loop over the cells, and the
    table is left without its [<tbody>]. *)
Theorem reassembleTable_aborts_on_missing_cell :
  let cell (id r c : string) :=
    Td (Some id) (Some r) (Some c) (Some "table1") "true" "x" in
  reassembleTable "table1" (Some (Table (Some []) (Some [])))
    [cell "c00" "0" "0"; cell "c01" "0" "1"; cell "c11" "1" "1"] []
  = (Throw ReferenceError, Some (Table (Some []) None)).
Proof. vm_compute. reflexivity. Qed.




(** ** The design document's statements about the editor *)

Import WebSocket WebSocketFacts Editor EditorFacts.

(** C1, as stated, fails.  The user edits block [b1] twice and leaves it;
    another user deletes the block, which removes its element and leaves
    its history alone; then a [block_locked] event of another user for
    [b1] arrives.  [handleLockUpdate] finds no element and returns at its
    guard: the block keeps its two entries and [undo] still returns a
    state. *)
Lemma lock_event_without_element_keeps_history :
  let el := Element "DIV" None (Some "text") None "true" ["editable"] "" "" in
  let loaded :=
    Page (Some "doc1") (Typing None 0 None) ∅ {[ "b1" := el ]}
      UndoRedo.initial (Connection (Some OPEN) (Some "alice") 0 []) in
  let edited :=
    blurTimeout "b1" None
      (handleBlockInput (Some "b1") (typed "b1" "ab"
         (handleBlockInput (Some "b1") (typed "b1" "a"
            (handleBlockFocus (Some "b1") loaded))))) in
  let deleted := handleRemoteBlockDeleted "doc1" "b1" edited in
  let st' :=
    handleLockUpdate "block_locked" (LockPayload "doc1" "b1" (Some "bob") None)
      deleted in
  getBlockElement "b1" deleted = None ∧
  undoStackOf "b1" (history st') = [Html "a"; Html "ab"] ∧
  (undo "b1" (history st')).1 = Normal (Some (Entry "b1" (Html "a"))).
Proof. vm_compute. split_and!; reflexivity. Qed.

(** C1, amended.  After [handleRemoteUpdate] has handled an update of
    block [b] in the open document, and after [handleLockUpdate] has
    handled a [block_locked] event of another user for a block [b] of the
    open document that has its element in the editor, both stacks of [b]
    are empty and [undo] returns [null], whatever the history held before.
    A lock event for a block without an element changes nothing. *)
Theorem external_change_clears_history (b : string) :
  (∀ payload st,
     up_block_id payload = b →
     truthy (currentDocId st) = true →
     currentDocId st = Some (up_document_id payload) →
     let h := history (handleRemoteUpdate payload st) in
     undoStackOf b h = [] ∧ redoStackOf b h = [] ∧ undo b h = (Normal None, h)) ∧
  (∀ payload st el,
     lp_block_id payload = b →
     truthy (currentDocId st) = true →
     currentDocId st = Some (lp_document_id payload) →
     getBlockElement b st = Some el →
     strictEq (locked_by payload) (currentUsername (ws st)) = false →
     unlocked_by payload = None →
     let h := history (handleLockUpdate "block_locked" payload st) in
     undoStackOf b h = [] ∧ redoStackOf b h = [] ∧ undo b h = (Normal None, h)) ∧
  (∀ type payload st,
     lp_block_id payload = b →
     getBlockElement b st = None →
     handleLockUpdate type payload st = st).
Proof.
  assert (∀ h, undoStackOf b (clearBlockHistory b h).2 = [] ∧
               redoStackOf b (clearBlockHistory b h).2 = [] ∧
               undo b (clearBlockHistory b h).2 =
                 (Normal None, (clearBlockHistory b h).2)) as Hclear.
  { intros h. destruct (clearBlockHistory_clears b h) as [Hu Hr].
    split_and!; [done|done|]. apply clearBlockHistory_undo. }
  split_and!.
  - intros payload st <- Hopen Hdoc h. subst h.
    rewrite handleRemoteUpdate_history by by apply otherDocument_false.
    apply Hclear.
  - intros payload st el <- Hopen Hdoc Hel Hother Hunlocked h. subst h.
    rewrite (handleLockUpdate_locked_history payload st el);
      [apply Hclear|by apply otherDocument_false|done|done|by rewrite Hunlocked].
  - intros type payload st <- Hel. by apply handleLockUpdate_absent.
Qed.

Lemma external_change_clears_history_witness :
  let el := Element "DIV" None (Some "text") None "true" ["editable"] "" "ab" in
  let st :=
    Page (Some "doc1") (Typing None 0 None) ∅ {[ "b1" := el ]}
      (run [PushState "b1" (Html "a"); PushState "b1" (Html "ab")] UndoRedo.initial)
      (Connection (Some OPEN) (Some "alice") 0 []) in
  let updated :=
    handleRemoteUpdate (UpdatePayload "doc1" "b1" "xyz" (Metadata None None None [])) st in
  let locked :=
    handleLockUpdate "block_locked" (LockPayload "doc1" "b1" (Some "bob") None) st in
  undo "b1" (history updated) = (Normal None, history updated) ∧
  undo "b1" (history locked) = (Normal None, history locked).
Proof.
  intros el st updated locked.
  destruct (external_change_clears_history "b1") as (Hupdate & Hlock & _).
  split.
  - apply Hupdate; reflexivity.
  - apply (Hlock _ st el); reflexivity.
Defined.

(** C4.  [handleBlockInput] saves the content with [pushState] before
    it counts the edit, and [pushState] takes what the stack object
    inherits from [Object.prototype] for a stack.  The block
    [constructor] gets the focus and is editable; the input event on it
    ends in the [TypeError] that [pushState] raises, before anything is
    counted: no update is sent, and no idle timer is left pending
    either. *)
Theorem input_on_inherited_name_schedules_nothing :
  let el := Element "DIV" None (Some "text") None "true" ["editable"] "" "" in
  let loaded :=
    Page (Some "doc1") (Typing None 0 None) ∅ {[ "constructor" := el ]}
      UndoRedo.initial (Connection (Some OPEN) (Some "alice") 0 []) in
  let focused := handleBlockFocus (Some "constructor") loaded in
  let st := typed "constructor" "a" focused in
  let st' := handleBlockInput (Some "constructor") st in
  currentBlockId (typingState st) = Some "constructor" ∧
  (contentEditable <$> getBlockElement "constructor" st) = Some "true" ∧
  (pushState "constructor" (Html "a") (history st)).1 = Throw TypeError ∧
  typingState st' = Typing (Some "constructor") 0 None ∧
  effects (ws st') = effects (ws st).
Proof. vm_compute. split_and!; reflexivity. Qed.




(** ** The design document's statement about reconnection *)

Import SessionFacts.

(** C5, as stated, fails: the ceiling is on the close events of one
    outage, not on all of them.  From the page as it is loaded, the
    connection is asked for, opens and closes, six times over: each of
    the six close events schedules a connection attempt, one more than
    [MAX_RECONNECT_ATTEMPTS], and each attempt waits [RECONNECT_DELAY],
    no longer than the one before. *)
Lemma close_events_after_open_are_not_bounded :
  let st :=
    Page None (Typing None 0 None) ∅ ∅ UndoRedo.initial WebSocket.initial in
  let outage :=
    [Session.Connect (Some "alice"); Session.SocketOpen; Session.SocketClose] in
  let events := outage ++ outage ++ outage ++ outage ++ outage ++ outage in
  let st' := Session.handleAll events st in
  length (List.filter Session.isClose events) = 6 ∧
  reconnectDelays (effects (ws st')) = [3000; 3000; 3000; 3000; 3000; 3000]%Z ∧
  reconnectAttempts (ws st') = 1%Z.
Proof. vm_compute. split_and!; reflexivity. Qed.



(** * Further properties *)

(** ** More on the history of a block *)

Lemma pushState_last b s st :
  inherited b = None ∨ is_Some (get b (undoStacks st)) →
  last (undoStackOf b (pushState b s st).2) = Some s.
Proof.
  intros Hb. rewrite pushState_undoStackOf by done. cbn zeta.
  destruct (decide (undoStackOf b st = [])) as [_|Hne]; [done|].
  destruct (decide (lastOr Undefined (undoStackOf b st) = s)) as [Hsame|_].
  - by apply (last_lastOr Undefined).
  - destruct (decide _).
    + rewrite tail_snoc by done. apply last_snoc.
    + apply last_snoc.
Qed.

(** A block that can be redone can be undone: the redo array only
    receives what [undo] takes from the undo array, which keeps one
    entry. *)
Lemma exec_anchored st c :
  (∀ b, redoStackOf b st ≠ [] → undoStackOf b st ≠ []) →
  ∀ b, redoStackOf b (exec st c) ≠ [] → undoStackOf b (exec st c) ≠ [].
Proof.
  intros Hst b. destruct c as [b0|b0 s|b0|b0|b0|]; simpl.
  - destruct (initStack_stacks b0 b st) as [[-> ->]|[-> ->]]; [apply Hst|done].
  - destruct (decide (b0 = b)) as [->|Hne].
    + destruct (inherited b) as [len|] eqn:Hkey;
        [destruct (get b (undoStacks st)) as [u|] eqn:HU|].
      * intros _ Hnil.
        assert (last (undoStackOf b (pushState b s st).2) = Some s) as Hlast
          by (apply pushState_last; right; by rewrite HU).
        by rewrite Hnil in Hlast.
      * rewrite (pushState_inherited b s st len) by done. apply Hst.
      * intros _ Hnil.
        assert (last (undoStackOf b (pushState b s st).2) = Some s) as Hlast
          by (apply pushState_last; by left).
        by rewrite Hnil in Hlast.
    + destruct (pushState_other b0 b s st Hne) as [-> ->]. apply Hst.
  - rewrite undo_eq. unfold undoStackOf, redoStackOf.
    destruct (get b0 (undoStacks st)) as [u|] eqn:HU;
      [|destruct (inherited b0) as [[?|]|]; apply Hst].
    destruct (decide (length u ≤ 1)) as [|Hlen]; [apply Hst|].
    assert (removelast u ≠ []) as Hrest.
    { pose proof (length_removelast u) as Hl. intros Hnil. rewrite Hnil in Hl.
      simpl in Hl. lia. }
    destruct (get b0 (redoStacks st)) as [r|] eqn:HR; simpl;
      rewrite !stackIn_set; destruct (decide (b0 = b)); try done; apply Hst.
  - rewrite redo_eq. unfold undoStackOf, redoStackOf.
    destruct (get b0 (redoStacks st)) as [[|x r]|] eqn:HR;
      [apply Hst| |destruct (inherited b0); apply Hst].
    destruct (get b0 (undoStacks st)) as [u|] eqn:HU;
      [|destruct (inherited b0) as [len|] eqn:Hkey]; simpl;
      rewrite ?stackIn_set; destruct (decide (b0 = b)) as [<-|]; try done;
      try apply Hst.
    + intros _. by destruct u.
    + intros Hrest. apply Hst. unfold redoStackOf.
      rewrite (stackIn_Some _ _ _ HR). done.
  - destruct (clearBlockHistory_stacks b0 b st) as [-> ->].
    destruct (decide (b0 = b)); [done|apply Hst].
  - done.
Qed.

Lemma run_anchored calls st :
  (∀ b, redoStackOf b st ≠ [] → undoStackOf b st ≠ []) →
  ∀ b, redoStackOf b (run calls st) ≠ [] → undoStackOf b (run calls st) ≠ [].
Proof.
  revert st. induction calls as [|c calls IH]; intros st Hst; [done|].
  simpl. apply IH. by apply exec_anchored.
Qed.

(** Undo and redo move one entry between the two arrays of their block. *)
Lemma exec_timeline st c b :
  paired st → isMove c = true →
  undoStackOf b (exec st c) ++ reverse (redoStackOf b (exec st c)) =
    undoStackOf b st ++ reverse (redoStackOf b st).
Proof.
  intros Hpaired Hmove. destruct c as [| |b0|b0| |]; try done; simpl.
  - rewrite undo_eq. unfold undoStackOf, redoStackOf.
    destruct (get b0 (undoStacks st)) as [u|] eqn:HU;
      [|by destruct (inherited b0) as [[?|]|]].
    destruct (decide (length u ≤ 1)) as [|Hlen]; [done|].
    destruct (get b0 (redoStacks st)) as [r|] eqn:HR.
    + simpl. rewrite !stackIn_set. destruct (decide (b0 = b)) as [<-|]; [|done].
      rewrite (stackIn_Some _ _ _ HU), (stackIn_Some _ _ _ HR).
      rewrite reverse_app, reverse_singleton, app_assoc.
      rewrite snoc_removelast; [done|]. intros ->. simpl in Hlen. lia.
    + destruct (Hpaired b0) as [Hur _]. rewrite HU, HR in Hur.
      by destruct Hur as [? ?].
  - rewrite redo_eq. unfold undoStackOf, redoStackOf.
    destruct (get b0 (redoStacks st)) as [[|x r]|] eqn:HR;
      [done| |by destruct (inherited b0)].
    assert (x :: r ≠ []) as Hne by done.
    remember (x :: r) as r' eqn:Hr'.
    destruct (get b0 (undoStacks st)) as [u|] eqn:HU.
    + simpl. rewrite !stackIn_set. destruct (decide (b0 = b)) as [<-|]; [|done].
      rewrite (stackIn_Some _ _ _ HU), (stackIn_Some _ _ _ HR).
      rewrite <- app_assoc, <- (reverse_singleton (lastOr Undefined r')),
        <- reverse_app.
      by rewrite snoc_removelast.
    + destruct (Hpaired b0) as [_ Hru]. rewrite HU, HR in Hru.
      by destruct Hru as [? ?].
Qed.






(** X2.  In every state the module can reach, a block with something to
    redo has something on its undo stack, and [undo] right after [redo]
    takes the redone state back: [redo] returns the newest entry of the
    redo stack, the [undo] that follows returns the state that was on top
    of the undo stack before, and the module is in the state it was in. *)
Theorem undo_after_redo_restores (calls : list call) b :
  let st := run calls UndoRedo.initial in
  redoStackOf b st ≠ [] →
  ∃ top next st1,
    last (undoStackOf b st) = Some top ∧
    last (redoStackOf b st) = Some next ∧
    redo b st = (Normal (Some (Entry b next)), st1) ∧
    undo b st1 = (Normal (Some (Entry b top)), st).
Proof.
  intros st Hredo.
  assert (undoStackOf b st ≠ []) as Hundo.
  { revert Hredo. apply run_anchored. intros b' Hb'. done. }
  unfold undoStackOf, redoStackOf in *.
  pose proof (stackIn_nonempty _ _ Hundo) as HU.
  pose proof (stackIn_nonempty _ _ Hredo) as HR.
  remember (stackIn b (undoStacks st)) as u eqn:Hu.
  remember (stackIn b (redoStacks st)) as r eqn:Hr.
  exists (lastOr Undefined u), (lastOr Undefined r),
    (Stacks (set b (u ++ [lastOr Undefined r]) (undoStacks st))
       (set b (removelast r) (redoStacks st))).
  split_and!.
  - by apply (last_lastOr Undefined).
  - by apply (last_lastOr Undefined).
  - rewrite redo_eq, HR, HU. by destruct r.
  - rewrite undo_eq. cbn [undoStacks redoStacks]. rewrite !get_set_eq.
    rewrite decide_False by (rewrite length_app; simpl; destruct u; [done|simpl; lia]).
    rewrite removelast_last, !set_set, lastOr_snoc.
    rewrite snoc_removelast by done.
    rewrite !set_id by done. by destruct st.
Qed.

Lemma undo_after_redo_restores_witness :
  let st :=
    run [PushState "b1" (Html "a"); PushState "b1" (Html "ab"); Undo "b1"]
      UndoRedo.initial in
  redoStackOf "b1" st ≠ [] ∧
  ∃ top next st1,
    last (undoStackOf "b1" st) = Some top ∧
    last (redoStackOf "b1" st) = Some next ∧
    redo "b1" st = (Normal (Some (Entry "b1" next)), st1) ∧
    undo "b1" st1 = (Normal (Some (Entry "b1" top)), st).
Proof.
  assert (redoStackOf "b1"
            (run [PushState "b1" (Html "a"); PushState "b1" (Html "ab"); Undo "b1"]
               UndoRedo.initial) ≠ []) as Hredo by (vm_compute; discriminate).
  split; [exact Hredo|].
  exact (undo_after_redo_restores
           [PushState "b1" (Html "a"); PushState "b1" (Html "ab"); Undo "b1"]
           "b1" Hredo).
Defined.

(** X3.  Undo and redo only move a cursor.  From a state in which every
    undo array has its redo array, as every sequence of calls leaves it,
    over any sequence of [undo] and [redo] calls, on any blocks, the undo
    stack of a block followed by its redo stack read from its newest
    entry is the same list as before, so no saved state is lost,
    duplicated or reordered. *)
Theorem undo_redo_keep_timeline (calls : list call) st b :
  paired st →
  forallb isMove calls = true →
  undoStackOf b (run calls st) ++ reverse (redoStackOf b (run calls st)) =
    undoStackOf b st ++ reverse (redoStackOf b st).
Proof.
  revert st. induction calls as [|c calls IH]; intros st Hpaired Hmoves; [done|].
  simpl in Hmoves. apply andb_prop in Hmoves as [Hmove Hmoves].
  simpl. rewrite IH; [|by apply exec_paired|done].
  by apply exec_timeline.
Qed.

Lemma undo_redo_keep_timeline_witness :
  let st :=
    run [PushState "b1" (Html "a"); PushState "b1" (Html "ab");
         PushState "b1" (Html "abc")] UndoRedo.initial in
  let st' := run [Undo "b1"; Undo "b1"; Redo "b1"; Undo "b2"] st in
  undoStackOf "b1" st' ++ reverse (redoStackOf "b1" st') =
    [Html "a"; Html "ab"; Html "abc"].
Proof.
  intros st st'. subst st'.
  rewrite (undo_redo_keep_timeline [Undo "b1"; Undo "b1"; Redo "b1"; Undo "b2"] st "b1").
  - reflexivity.
  - apply run_paired, paired_initial.
  - reflexivity.
Defined.





(** ** More on the connection *)

Lemma sent_snoc es e :
  sent (es ++ [e]) = sent es ++ (if e is Send m then [m] else []).
Proof.
  unfold sent. rewrite omap_app. simpl. by destruct e.
Qed.

Lemma sendMessage_closed m st :
  socket st ≠ Some OPEN →
  sendMessage m st =
    (false, showNotification "Cannot send message: Connection not active."
              "warning" st).
Proof. unfold sendMessage. by destruct (socket st) as [[]|]. Qed.

(** A run of [sendMessage] calls on a socket that is not open. *)
Lemma sendMessages_closed ms st :
  socket st ≠ Some OPEN →
  let st' := fold_left (λ st m, (sendMessage m st).2) ms st in
  socket st' = socket st ∧ currentUsername st' = currentUsername st ∧
  reconnectAttempts st' = reconnectAttempts st ∧
  sent (effects st') = sent (effects st).
Proof.
  revert st. induction ms as [|m ms IH]; intros st Hclosed; [done|].
  cbn zeta. simpl fold_left. rewrite sendMessage_closed by done. cbn [snd].
  pose proof (IH (showNotification "Cannot send message: Connection not active."
                    "warning" st) Hclosed) as Hrest.
  cbn zeta in Hrest. destruct Hrest as (-> & -> & -> & ->).
  split_and!; [done..|]. simpl. by rewrite sent_snoc, app_nil_r.
Qed.

Lemma onopen_sent st :
  sent (effects (onopen st)) =
    sent (effects st) ++ [set_username (currentUsername st)].
Proof.
  unfold onopen, sendMessage. simpl. by rewrite !sent_snoc, !app_nil_r.
Qed.

Lemma connectWebSocket_closed username st :
  socket st ≠ Some OPEN →
  currentUsername (connectWebSocket username st) = username ∧
  sent (effects (connectWebSocket username st)) = sent (effects st).
Proof.
  intros Hclosed. unfold connectWebSocket.
  destruct (socket st) as [[]|] eqn:Hsocket; try done;
    try (simpl; by rewrite sent_snoc, app_nil_r).
  destruct (decide (username ≠ currentUsername st)) as [Hne|Heq].
  - rewrite sendMessage_closed by by rewrite Hsocket.
    simpl. by rewrite !sent_snoc, !app_nil_r.
  - split; [|done]. by destruct (decide (username = currentUsername st)).
Qed.

Lemma connectWebSocket_connected username st :
  (socket (connectWebSocket username st) = Some OPEN ∨
   socket (connectWebSocket username st) = Some CONNECTING) ∧
  currentUsername (connectWebSocket username st) = username.
Proof.
  unfold connectWebSocket.
  destruct (socket st) as [[]|] eqn:Hsocket; simpl; try (split; [by right|done]).
  - destruct (decide (username ≠ currentUsername st)) as [Hne|Heq].
    + unfold sendMessage. rewrite Hsocket. simpl. split; [by right|done].
    + rewrite Hsocket. split; [by right|].
      by destruct (decide (username = currentUsername st)).
  - destruct (decide (username ≠ currentUsername st)) as [Hne|Heq].
    + unfold sendMessage. rewrite Hsocket. simpl. split; [by left|done].
    + rewrite Hsocket. split; [by left|].
      by destruct (decide (username = currentUsername st)).
Qed.

Lemma onopen_delays st :
  reconnectDelays (effects (onopen st)) = reconnectDelays (effects st).
Proof.
  unfold onopen, sendMessage. simpl. by rewrite !reconnectDelays_snoc, !app_nil_r.
Qed.

(** X5.  What is sent while the socket is not open is lost: every such
    [sendMessage] returns [false] and sends nothing, and when the
    connection is made again and opens, the only message that goes out is
    [set_username]; nothing is kept to be sent later. *)
Theorem messages_while_disconnected_are_lost (ms : list message) username st :
  socket st ≠ Some OPEN →
  let st' := fold_left (λ st m, (sendMessage m st).2) ms st in
  (∀ m, (sendMessage m st').1 = false) ∧
  sent (effects st') = sent (effects st) ∧
  sent (effects (onopen (connectWebSocket username st'))) =
    sent (effects st) ++ [set_username username].
Proof.
  intros Hclosed st'.
  destruct (sendMessages_closed ms st Hclosed) as (Hsocket & _ & _ & Hsent).
  fold st' in Hsocket, Hsent.
  assert (socket st' ≠ Some OPEN) as Hclosed' by by rewrite Hsocket.
  split_and!.
  - intros m. by rewrite sendMessage_closed.
  - done.
  - rewrite onopen_sent.
    destruct (connectWebSocket_closed username st' Hclosed') as [-> ->].
    by rewrite Hsent.
Qed.

Lemma messages_while_disconnected_are_lost_witness :
  let st := onclose (onopen (connectWebSocket (Some "alice") WebSocket.initial)) in
  let st' :=
    (sendMessage (lock_block (Some "doc1") "b1")
       (sendMessage (update_document (Some "doc1") "b1" (Html "a")) st).2).2 in
  sent (effects (onopen (connectWebSocket (Some "alice") st'))) =
    [set_username (Some "alice"); set_username (Some "alice")].
Proof.
  intros st st'.
  assert (socket st ≠ Some OPEN) as Hclosed by discriminate.
  destruct (messages_while_disconnected_are_lost
              [update_document (Some "doc1") "b1" (Html "a");
               lock_block (Some "doc1") "b1"] (Some "alice") st Hclosed)
    as (_ & _ & Hsent).
  exact Hsent.
Defined.

(** X6.  Asking again for the connection under the same name changes
    nothing: the second [connectWebSocket] opens no second socket and
    sends no second [set_username]. *)
Theorem connectWebSocket_twice username st :
  connectWebSocket username (connectWebSocket username st) =
    connectWebSocket username st.
Proof.
  destruct (connectWebSocket_connected username st) as [Hsocket Hname].
  unfold connectWebSocket at 1.
  rewrite Hname, decide_False by (by intros H; apply H).
  by destruct Hsocket as [-> | ->].
Qed.

(** X7.  The limit on reconnection attempts holds for one outage only:
    [onopen] puts the counter back to zero, so a connection that is asked
    for again, opens and closes, [n] times over, schedules [n] attempts,
    each after [RECONNECT_DELAY], whatever the counter was before. *)
Theorem open_resets_reconnection (n : nat) st :
  let flap := λ st, onclose (onopen (connectWebSocket (currentUsername st) st)) in
  reconnectDelays (effects (Nat.iter n flap st)) =
    reconnectDelays (effects st) ++ replicate n RECONNECT_DELAY ∧
  (0 < n → reconnectAttempts (Nat.iter n flap st) = 1%Z).
Proof.
  intros flap. subst flap.
  assert (∀ st, reconnectDelays
                  (effects (onclose (onopen (connectWebSocket (currentUsername st) st)))) =
                reconnectDelays (effects st) ++ [RECONNECT_DELAY]) as Hdelay.
  { intros st0. rewrite onclose_delays, onopen_attempts, onopen_delays.
    destruct (connectWebSocket_delays (currentUsername st0) st0) as [-> _].
    by rewrite decide_True by done. }
  assert (∀ st, reconnectAttempts
                  (onclose (onopen (connectWebSocket (currentUsername st) st))) = 1%Z)
    as Hattempts.
  { intros st0. rewrite onclose_attempts, onopen_attempts.
    by rewrite decide_True by done. }
  split.
  - induction n as [|n IH]; [by rewrite app_nil_r|].
    rewrite Nat.iter_succ, Hdelay, IH, <- app_assoc. f_equal.
    by rewrite replicate_S_end.
  - destruct n; [lia|]. intros _. rewrite Nat.iter_succ. apply Hattempts.
Qed.

Lemma open_resets_reconnection_witness :
  let exhausted := Nat.iter 7 onclose WebSocket.initial in
  let flap := λ st, onclose (onopen (connectWebSocket (currentUsername st) st)) in
  reconnectAttempts exhausted = MAX_RECONNECT_ATTEMPTS ∧
  reconnectAttempts (Nat.iter 3 flap exhausted) = 1%Z.
Proof.
  split; [reflexivity|].
  apply (open_resets_reconnection 3 (Nat.iter 7 onclose WebSocket.initial)). lia.
Defined.

(** ** More on the editor *)

(** What [send] and the two functions that send an update leave alone. *)
Lemma send_frame m st :
  currentDocId (send m st).2 = currentDocId st ∧
  typingState (send m st).2 = typingState st ∧
  activeLocks (send m st).2 = activeLocks st ∧
  blocks (send m st).2 = blocks st ∧
  history (send m st).2 = history st ∧
  socket (ws (send m st).2) = socket (ws st) ∧
  currentUsername (ws (send m st).2) = currentUsername (ws st) ∧
  reconnectAttempts (ws (send m st).2) = reconnectAttempts (ws st).
Proof.
  unfold send, sendMessage.
  by destruct (socket (ws st)) as [[]|] eqn:Hsocket; simpl; rewrite ?Hsocket.
Qed.

Lemma send_closed m st :
  socket (ws st) ≠ Some OPEN →
  sent (effects (ws (send m st).2)) = sent (effects (ws st)).
Proof.
  intros Hclosed. unfold send. rewrite sendMessage_closed by done.
  simpl. by rewrite sent_snoc, app_nil_r.
Qed.

Lemma sendSpecificBlockUpdate_frame b content st :
  let st' := (sendSpecificBlockUpdate b content st).2 in
  currentDocId st' = currentDocId st ∧
  typingState st' = typingState st ∧
  activeLocks st' = activeLocks st ∧
  blocks st' = blocks st ∧
  history st' = history st ∧
  socket (ws st') = socket (ws st) ∧
  currentUsername (ws st') = currentUsername (ws st).
Proof.
  unfold sendSpecificBlockUpdate. destruct (truthy (currentDocId st)); [|done].
  cbn zeta. destruct (send_frame (update_document (currentDocId st) b content) st)
    as (? & ? & ? & ? & ? & ? & ? & ?). done.
Qed.

Lemma sendCurrentBlockUpdate_frame force st :
  let st' := sendCurrentBlockUpdate force st in
  currentDocId st' = currentDocId st ∧
  currentBlockId (typingState st') = currentBlockId (typingState st) ∧
  activeLocks st' = activeLocks st ∧
  blocks st' = blocks st ∧
  history st' = history st ∧
  socket (ws st') = socket (ws st) ∧
  currentUsername (ws st') = currentUsername (ws st).
Proof.
  unfold sendCurrentBlockUpdate.
  destruct (negb (truthy (currentBlockId (typingState st)))); [done|].
  destruct (negb force && _); [done|].
  destruct (currentBlockId (typingState st)) as [b|] eqn:Hb; [|done].
  destruct (getBlockElement b st) as [el|]; [|by rewrite Hb].
  destruct (bool_decide (contentEditable el ≠ "true")); [by rewrite Hb|].
  cbn zeta.
  destruct (sendSpecificBlockUpdate_frame b (Html (innerHTML el)) st)
    as (Hdoc & Htyping & Hlocks & Hblocks & Hhistory & Hsocket & Hname).
  cbn zeta in *. unfold resetTyping, withTyping. simpl.
  by rewrite Htyping, Hb.
Qed.



Lemma typed_present b html st el :
  getBlockElement b st = Some el →
  typed b html st = setBlock b (setInnerHTML html el) st.
Proof. unfold typed. by intros ->. Qed.















Lemma applyLockStyle_locked lockedBy el :
  contentEditable (applyLockStyle lockedBy el) = "false" ∧
  "locked" ∈ classList (applyLockStyle lockedBy el) ∧
  title (applyLockStyle lockedBy el) = "Locked by " +:+ template lockedBy.
Proof.
  split_and!; [done| |done]. simpl. unfold classRemove, classAdd.
  apply list_elem_of_filter. split; [done|].
  destruct (decide ("locked" ∈ classList el)); [done|].
  apply elem_of_app. right. by left.
Qed.

Lemma removeLockStyle_unlocked el :
  ("locked" ∉ classList (removeLockStyle el)) ∧
  title (removeLockStyle el) = "" ∧
  contentEditable (removeLockStyle el) =
    (if bool_decide (tagName el ≠ "HR" ∧ blockType el ≠ Some "table-options"
                     ∧ blockType el ≠ Some "table")
     then "true" else "false").
Proof.
  unfold removeLockStyle.
  destruct (bool_decide _); simpl.
  - split_and!; [|done|done]. unfold classRemove at 1.
    intros [Hne _]%list_elem_of_filter. by apply Hne.
  - split_and!; [|done|done]. unfold classRemove at 1.
    intros [Hne _]%list_elem_of_filter. by apply Hne.
Qed.

Lemma substring_all s : String.substring 0 (String.length s) s = s.
Proof. induction s as [|c s IH]; [done|]. simpl. by rewrite IH. Qed.

(** The name that [isBlockLockedByOther] reads in the title written by
    [applyLockStyle]. *)
Lemma replace_locked_by name :
  replace "Locked by " "" ("Locked by " +:+ name) = name.
Proof.
  unfold replace. simpl.
  destruct name as [|c name]; [done|].
  simpl. unfold String.app. simpl. f_equal. apply substring_all.
Qed.

Lemma isBlockLockedByOther_locked b st el name :
  getBlockElement b st = Some el →
  contentEditable el = "false" → "locked" ∈ classList el →
  title el = "Locked by " +:+ name →
  isBlockLockedByOther b st = bool_decide (Some name ≠ currentUsername (ws st)).
Proof.
  intros Hel Hedit Hlocked Htitle. unfold isBlockLockedByOther.
  rewrite Hel, bool_decide_eq_true_2 by done.
  rewrite Htitle, replace_locked_by.
  by rewrite (bool_decide_eq_true_2 ("Locked by " +:+ name ≠ ""))
    by (unfold String.app; simpl; discriminate).
Qed.

Lemma isBlockLockedByOther_unlocked b st el :
  getBlockElement b st = Some el →
  contentEditable el ≠ "false" ∨ "locked" ∉ classList el →
  isBlockLockedByOther b st = false.
Proof.
  intros Hel Hfree. unfold isBlockLockedByOther. rewrite Hel.
  rewrite bool_decide_eq_false_2; [done|]. intros [? ?]. by destruct Hfree.
Qed.



(** The two events that take the block away from the user. *)
Lemma handleLockUpdate_lost type payload st el :
  otherDocument (lp_document_id payload) st = false →
  getBlockElement (lp_block_id payload) st = Some el →
  type = "lock_denied" ∨
    type = "block_locked" ∧
    strictEq (locked_by payload) (currentUsername (ws st)) = false ∧
    strictEq (unlocked_by payload) (currentUsername (ws st)) = false →
  handleLockUpdate type payload st =
    Page (currentDocId st) (typingState st)
      (activeLocks st ∖ {[lp_block_id payload]})
      (<[lp_block_id payload := applyLockStyle (locked_by payload) el]> (blocks st))
      (clearBlockHistory (lp_block_id payload) (history st)).2 (ws st).
Proof.
  intros Hdoc Hel Htype. unfold handleLockUpdate. rewrite Hdoc, Hel.
  destruct Htype as [->|(-> & -> & ->)]; reflexivity.
Qed.

Lemma handleLockUpdate_unlocked payload st el :
  otherDocument (lp_document_id payload) st = false →
  getBlockElement (lp_block_id payload) st = Some el →
  handleLockUpdate "block_unlocked" payload st =
    Page (currentDocId st) (typingState st)
      (activeLocks st ∖ {[lp_block_id payload]})
      (<[lp_block_id payload := removeLockStyle el]> (blocks st))
      (history st) (ws st).
Proof.
  intros Hdoc Hel. unfold handleLockUpdate. by rewrite Hdoc, Hel.
Qed.




(** X11.  The page shows what the lock events say.  After a
    [block_locked] event of another user for a block of the open document,
    the block is not editable and [isBlockLockedByOther] reads that
    user's name back from the title and returns [true]; after the
    [block_unlocked] event that follows, it returns [false], the block is
    editable again unless it is a rule, a table or the options of a table,
    and its content is what it was. *)
Theorem lock_events_mark_block st payload payload' el name :
  otherDocument (lp_document_id payload) st = false →
  getBlockElement (lp_block_id payload) st = Some el →
  locked_by payload = Some name →
  currentUsername (ws st) ≠ Some name →
  strictEq (unlocked_by payload) (currentUsername (ws st)) = false →
  lp_document_id payload' = lp_document_id payload →
  lp_block_id payload' = lp_block_id payload →
  let b := lp_block_id payload in
  let st1 := handleLockUpdate "block_locked" payload st in
  let st2 := handleLockUpdate "block_unlocked" payload' st1 in
  isBlockLockedByOther b st1 = true ∧
  (contentEditable <$> getBlockElement b st1) = Some "false" ∧
  isBlockLockedByOther b st2 = false ∧
  (tagName el ≠ "HR" → blockType el ≠ Some "table-options" →
   blockType el ≠ Some "table" →
   (contentEditable <$> getBlockElement b st2) = Some "true") ∧
  (innerHTML <$> getBlockElement b st2) = Some (innerHTML el).
Proof.
  intros Hdoc Hel Hname Hother Hunlocked Hdoc' Hblock' b st1 st2.
  assert (strictEq (locked_by payload) (currentUsername (ws st)) = false)
    as Hlocked.
  { rewrite Hname. destruct (currentUsername (ws st)) as [user|]; [|done].
    apply bool_decide_eq_false_2. by intros ->. }
  pose proof (handleLockUpdate_lost "block_locked" payload st el Hdoc Hel
                (or_intror (conj eq_refl (conj Hlocked Hunlocked)))) as Hst1.
  fold b st1 in Hst1.
  set (locked := applyLockStyle (locked_by payload) el) in *.
  assert (getBlockElement b st1 = Some locked) as Hel1.
  { rewrite Hst1. unfold getBlockElement. simpl. apply lookup_insert_eq. }
  destruct (applyLockStyle_locked (locked_by payload) el)
    as (Hedit & Hclass & Htitle). fold locked in Hedit, Hclass, Htitle.
  assert (otherDocument (lp_document_id payload') st1 = false) as Hdoc1.
  { rewrite Hdoc', <- Hdoc, Hst1. reflexivity. }
  pose proof (handleLockUpdate_unlocked payload' st1 locked Hdoc1) as Hst2.
  rewrite Hblock' in Hst2. specialize (Hst2 Hel1). fold b st2 in Hst2.
  assert (getBlockElement b st2 = Some (removeLockStyle locked)) as Hel2.
  { rewrite Hst2. unfold getBlockElement. simpl. apply lookup_insert_eq. }
  destruct (removeLockStyle_unlocked locked) as (Hclass2 & _ & Hedit2).
  split_and!.
  - rewrite (isBlockLockedByOther_locked b st1 locked name Hel1 Hedit Hclass)
      by by rewrite Htitle, Hname.
    apply bool_decide_eq_true_2. rewrite Hst1. simpl. congruence.
  - by rewrite Hel1, <- Hedit.
  - apply (isBlockLockedByOther_unlocked b st2 _ Hel2). by right.
  - intros Htag Hoptions Htable. rewrite Hel2. simpl. f_equal.
    rewrite Hedit2. by rewrite bool_decide_eq_true_2.
  - rewrite Hel2. unfold removeLockStyle. by case_match.
Qed.

Lemma lock_events_mark_block_witness :
  let el := Element "DIV" None (Some "text") None "true" ["editable"] "" "abc" in
  let st :=
    Page (Some "doc1") (Typing None 0 None) ∅ {[ "b1" := el ]}
      UndoRedo.initial (Connection (Some OPEN) (Some "alice") 0 []) in
  let st1 :=
    handleLockUpdate "block_locked" (LockPayload "doc1" "b1" (Some "bob") None) st in
  let st2 :=
    handleLockUpdate "block_unlocked" (LockPayload "doc1" "b1" None (Some "bob")) st1 in
  isBlockLockedByOther "b1" st1 = true ∧
  isBlockLockedByOther "b1" st2 = false ∧
  (contentEditable <$> getBlockElement "b1" st2) = Some "true".
Proof.
  intros el st st1 st2.
  assert (currentUsername (ws st) ≠ Some "bob") as Hother by discriminate.
  destruct (lock_events_mark_block st
              (LockPayload "doc1" "b1" (Some "bob") None)
              (LockPayload "doc1" "b1" None (Some "bob")) el "bob"
              eq_refl eq_refl eq_refl Hother eq_refl eq_refl eq_refl)
    as (Hlocked & _ & Hunlocked & Hedit & _).
  split_and!; [exact Hlocked|exact Hunlocked|].
  apply Hedit; discriminate.
Defined.

(** X12.  An update that cannot be sent is not tried again.  When
    [sendCurrentBlockUpdate] has something to report for the focused,
    editable block and the socket is not open, nothing is sent, and the
    count of edits and the timer are reset all the same: a later call
    that is not forced, as the idle timer and the threshold make, sends
    nothing, even on a socket that has opened again. *)
Theorem unsent_update_is_not_retried force st b el :
  currentBlockId (typingState st) = Some b → b ≠ "" →
  getBlockElement b st = Some el → contentEditable el = "true" →
  truthy (currentDocId st) = true →
  socket (ws st) ≠ Some OPEN →
  force = true ∨ charCountSinceLastUpdate (typingState st) ≠ 0 →
  let st' := sendCurrentBlockUpdate force st in
  sent (effects (ws st')) = sent (effects (ws st)) ∧
  typingState st' = Typing (Some b) 0 None ∧
  (∀ w, sendCurrentBlockUpdate false (withWs w st') = withWs w st').
Proof.
  intros Hb Hne Hel Hedit Hdoc Hclosed Hdue st'.
  assert (st' =
          resetTyping (Some b)
            (send (update_document (currentDocId st) b (Html (innerHTML el))) st).2)
    as Hst'.
  { subst st'. unfold sendCurrentBlockUpdate.
    rewrite Hb, (truthy_Some b Hne), Hel, Hedit. simpl.
    assert (negb force
            && bool_decide (charCountSinceLastUpdate (typingState st) = 0) = false)
      as ->.
    { destruct Hdue as [->|Hcount]; [done|].
      by rewrite (bool_decide_eq_false_2 _ Hcount), andb_false_r. }
    unfold sendSpecificBlockUpdate. rewrite Hdoc.
    destruct (send_frame (update_document (currentDocId st) b (Html (innerHTML el))) st)
      as (_ & -> & _). by rewrite Hb. }
  split_and!.
  - rewrite Hst'. simpl. by apply send_closed.
  - by rewrite Hst'.
  - intros w. unfold sendCurrentBlockUpdate. rewrite Hst'. simpl.
    by rewrite (bool_decide_eq_true_2 (b ≠ "")) by done.
Qed.

Lemma unsent_update_is_not_retried_witness :
  let el := Element "DIV" None (Some "text") None "true" ["editable"] "" "abc" in
  let st :=
    Page (Some "doc1") (Typing (Some "b1") 3 None) {[ "b1" ]} {[ "b1" := el ]}
      UndoRedo.initial (Connection None (Some "alice") 1 []) in
  let st' := sendCurrentBlockUpdate false st in
  let reopened := withWs (onopen (connectWebSocket (Some "alice") (ws st'))) st' in
  sent (effects (ws st')) = [] ∧
  sendCurrentBlockUpdate false reopened = reopened.
Proof.
  intros el st st' reopened.
  assert ("b1" ≠ "") as Hne by done.
  assert (socket (ws st) ≠ Some OPEN) as Hclosed by discriminate.
  assert (charCountSinceLastUpdate (typingState st) ≠ 0) as Hcount by discriminate.
  destruct (unsent_update_is_not_retried false st "b1" el
              eq_refl Hne eq_refl eq_refl eq_refl Hclosed (or_intror Hcount))
    as (Hsent & _ & Hlater).
  split; [exact Hsent|]. apply Hlater.
Defined.

(** On the block that was peeked, [undo] and [redo] return a state. *)
Lemma perform_peeked action h target :
  peekTarget action h = Some target → paired h →
  ∃ stateToApply, (perform action target h).1 = Normal (Some stateToApply).
Proof.
  intros Hpeek Hpaired. destruct action; simpl in *.
  - destruct (undo_peeked h target Hpeek Hpaired) as (u & r & _ & _ & _ & ->).
    by eexists.
  - destruct (redo_peeked h target Hpeek Hpaired) as (u & r & _ & _ & _ & ->).
    by eexists.
Qed.

(** [undo] and [redo] on one block leave the others alone. *)
Lemma perform_other action target h b :
  b ≠ target →
  undoStackOf b (perform action target h).2 = undoStackOf b h ∧
  redoStackOf b (perform action target h).2 = redoStackOf b h.
Proof.
  intros Hne. unfold undoStackOf, redoStackOf. destruct action; simpl.
  - rewrite undo_eq. repeat case_match; simpl;
      by rewrite ?stackIn_set_ne by done.
  - rewrite redo_eq. repeat case_match; simpl;
      by rewrite ?stackIn_set_ne by done.
Qed.

Lemma isBlockLockedByOther_not_editable b st el :
  getBlockElement b st = Some el → isBlockLockedByOther b st = true →
  contentEditable el = "false".
Proof.
  unfold isBlockLockedByOther. intros ->.
  destruct (bool_decide_reflect
              (contentEditable el = "false" ∧ "locked" ∈ classList el))
    as [[Hedit _]|]; done.
Qed.

(** How [handleKeyDown] completes, when no block has lost its redo
    array. *)
Lemma handleKeyDown_completion ctrlKey key st :
  paired (history st) →
  (handleKeyDown ctrlKey key st).1 =
    match (if ctrlKey then actionOfKey key else None) with
    | Some undoAction =>
        match peekUndoBlockId (history st) with
        | Some target =>
            if bool_decide (target ≠ "")
               && match getBlockElement target st with
                  | None => true
                  | Some _ => isBlockLockedByOther target st
                  end
            then Throw TypeError else Normal tt
        | None => Normal tt
        end
    | _ => Normal tt
    end.
Proof.
  intros Hpaired. unfold handleKeyDown.
  destruct ctrlKey; [|done]. simpl negb. cbn iota.
  destruct (actionOfKey key) as [action|]; [|done].
  destruct (peekTarget action (history st)) as [target|] eqn:Hpeek;
    [|destruct action; simpl in Hpeek; rewrite ?Hpeek; done].
  destruct (perform_peeked action (history st) target Hpeek Hpaired)
    as (stateToApply & Hperform).
  assert ((match action with
           | undoAction =>
               match peekUndoBlockId (history st) with
               | Some target =>
                   if bool_decide (target ≠ "")
                      && match getBlockElement target st with
                         | None => true
                         | Some _ => isBlockLockedByOther target st
                         end
                   then Throw TypeError else Normal tt
               | None => Normal tt
               end
           | redoAction => Normal tt
           end) =
          (if bool_decide (target ≠ "")
              && match getBlockElement target st with
                 | None => true
                 | Some _ => isBlockLockedByOther target st
                 end
           then clearAllRedoStacksIfUndo action else Normal tt)) as ->.
  { destruct action; simpl in *; [by rewrite Hpeek|by case_match]. }
  destruct (bool_decide (target ≠ "")); [|done]. simpl.
  destruct (getBlockElement target st) as [el|] eqn:Hel; [|done].
  destruct (isBlockLockedByOther target st) eqn:Hlocked.
  - rewrite (isBlockLockedByOther_not_editable target st el Hel Hlocked).
    by rewrite andb_false_r.
  - destruct (perform action target (history st)) as [[[entry|]|e] h];
      simpl in Hperform; try done.
    by destruct (_ && _).
Qed.

(** The state after a [handleKeyDown] that was rejected because the block
    to act on has no element. *)
Lemma handleKeyDown_missing key action target st :
  actionOfKey key = Some action →
  peekTarget action (history st) = Some target → target ≠ "" →
  getBlockElement target st = None →
  handleKeyDown true key st =
    (clearAllRedoStacksIfUndo action,
     notify ("Cannot " +:+ actionName action +:+ ": Block no longer exists.")
       "error" st).
Proof.
  intros Hkey Hpeek Hne Hel. unfold handleKeyDown.
  rewrite Hkey, Hpeek, Hel. simpl. by rewrite (bool_decide_eq_true_2 _ Hne).
Qed.

Lemma send_blocks m st : blocks (send m st).2 = blocks st.
Proof. by destruct (send_frame m st) as (_ & _ & _ & ? & _). Qed.

Lemma send_history m st : history (send m st).2 = history st.
Proof. by destruct (send_frame m st) as (_ & _ & _ & _ & ? & _). Qed.

Lemma sendSpecificBlockUpdate_blocks b content st :
  blocks (sendSpecificBlockUpdate b content st).2 = blocks st.
Proof. by destruct (sendSpecificBlockUpdate_frame b content st) as (_ & _ & _ & ? & _). Qed.

Lemma sendSpecificBlockUpdate_history b content st :
  history (sendSpecificBlockUpdate b content st).2 = history st.
Proof. by destruct (sendSpecificBlockUpdate_frame b content st) as (_ & _ & _ & _ & ? & _). Qed.

(** What [handleKeyDown] changes in the page and in the history: nothing,
    or the block that was peeked. *)
Lemma handleKeyDown_changes ctrlKey key st :
  let st' := (handleKeyDown ctrlKey key st).2 in
  blocks st' = blocks st ∧ history st' = history st ∨
  ∃ action target,
    peekTarget action (history st) = Some target ∧
    (blocks st' = blocks st ∨ ∃ el, blocks st' = <[target := el]> (blocks st)) ∧
    (history st' = (perform action target (history st)).2 ∨
     history st' =
       (clearBlockHistory target (perform action target (history st)).2).2).
Proof.
  unfold handleKeyDown.
  destruct ctrlKey; [|by left]. simpl negb. cbn iota.
  destruct (actionOfKey key) as [action|]; [|by left].
  destruct (peekTarget action (history st)) as [target|] eqn:Hpeek;
    [|left; by destruct action].
  destruct (negb _); [left; by destruct action|].
  destruct (getBlockElement target st) as [el|]; [|by left].
  destruct (_ && _).
  - right. exists action, target. split; [done|].
    destruct (perform action target (history st)) as [[[entry|]|e] h]; simpl.
    + rewrite sendSpecificBlockUpdate_blocks, sendSpecificBlockUpdate_history.
      simpl. split; [right; by eexists|by left].
    + split; by left.
    + split; by left.
  - destruct (isBlockLockedByOther target st); [by left|].
    right. exists action, target. split; [done|].
    destruct (perform action target (history st)) as [[[entry|]|e] h]; simpl.
    + destruct action; simpl;
        rewrite ?send_blocks, ?send_history; simpl;
        (split; [right; by eexists|]); [by right|by left].
    + destruct action; split; by left.
    + split; by left.
Qed.

(** X13.  When [handleKeyDown] raises.  In a page whose history has a
    redo array for every undo array, as every sequence of calls leaves it,
    the handler raises exactly when a Ctrl+Z is rejected: the block that
    [peekUndoBlockId] names has no element in the page any more, or the
    page shows it as locked by another user.  What is raised is the
    [TypeError] of the call of [clearAllRedoStacks], which [undo_redo.js]
    does not export, and with which the promise of the handler, an
    [async] function, is rejected; by then only a notification has been
    shown.  Ctrl+Y, and every Ctrl+Z that is carried out, complete
    normally. *)
Theorem handleKeyDown_raises_on_rejected_undo ctrlKey key st e :
  paired (history st) →
  ((handleKeyDown ctrlKey key st).1 = Throw e ↔
   e = TypeError ∧ ctrlKey = true ∧ actionOfKey key = Some undoAction ∧
   ∃ target,
     peekUndoBlockId (history st) = Some target ∧ target ≠ "" ∧
     (getBlockElement target st = None ∨ isBlockLockedByOther target st = true)) ∧
  ((handleKeyDown ctrlKey key st).1 = Throw e →
   blocks (handleKeyDown ctrlKey key st).2 = blocks st ∧
   history (handleKeyDown ctrlKey key st).2 = history st ∧
   typingState (handleKeyDown ctrlKey key st).2 = typingState st ∧
   sent (effects (ws (handleKeyDown ctrlKey key st).2)) = sent (effects (ws st))).
Proof.
  intros Hpaired.
  assert ((handleKeyDown ctrlKey key st).1 = Throw e ↔
          e = TypeError ∧ ctrlKey = true ∧ actionOfKey key = Some undoAction ∧
          ∃ target,
            peekUndoBlockId (history st) = Some target ∧ target ≠ "" ∧
            (getBlockElement target st = None
             ∨ isBlockLockedByOther target st = true)) as Hiff.
  { rewrite handleKeyDown_completion by done.
    destruct ctrlKey; [|split; [done|by intros (_ & ? & _)]].
    destruct (actionOfKey key) as [[]|];
      [|split; [done|by intros (_ & _ & ? & _)]..].
    destruct (peekUndoBlockId (history st)) as [target|];
      [|split; [done|by intros (_ & _ & _ & ? & ? & _)]].
    destruct (bool_decide_reflect (target ≠ "")) as [Hne|Hempty]; simpl.
    - destruct (getBlockElement target st) as [el|] eqn:Hel.
      + destruct (isBlockLockedByOther target st) eqn:Hlocked.
        * split; [intros [= <-]|by intros (-> & _)]. split_and!; [done..|].
          exists target. split_and!; [done..|by right].
        * split; [done|]. intros (_ & _ & _ & target' & [= <-] & _ & [?|?]); congruence.
      + split; [intros [= <-]|by intros (-> & _)]. split_and!; [done..|].
        exists target. split_and!; [done..|by left].
    - split; [done|]. by intros (_ & _ & _ & target' & [= <-] & ? & _). }
  split; [exact Hiff|].
  intros (-> & -> & Hkey & target & Hpeek & Hne & Hrejected)%Hiff.
  destruct (getBlockElement target st) as [el|] eqn:Hel.
  - destruct Hrejected as [|Hlocked]; [done|].
    assert (strictEq (currentBlockId (typingState st)) (Some target)
            && bool_decide (contentEditable el = "true") = false) as Hoff.
    { rewrite (isBlockLockedByOther_not_editable target st el Hel Hlocked).
      by rewrite andb_false_r. }
    rewrite (handleKeyDown_off_block st key undoAction target el) by done.
    rewrite Hlocked. simpl. by rewrite sent_snoc, app_nil_r.
  - rewrite (handleKeyDown_missing key undoAction target st) by done.
    simpl. by rewrite sent_snoc, app_nil_r.
Qed.

Lemma handleKeyDown_raises_on_rejected_undo_witness :
  let el := Element "DIV" None (Some "text") None "true" ["editable"] "" "ab" in
  let h :=
    run [PushState "b1" (Html "a"); PushState "b1" (Html "ab")] UndoRedo.initial in
  let st :=
    Page (Some "doc1") (Typing None 0 None) ∅ {[ "b2" := el ]} h
      (Connection (Some OPEN) (Some "alice") 0 []) in
  (handleKeyDown true "z" st).1 = Throw TypeError ∧
  history (handleKeyDown true "z" st).2 = h.
Proof.
  intros el h st.
  assert (paired (history st)) as Hpaired by apply run_paired, paired_initial.
  destruct (handleKeyDown_raises_on_rejected_undo true "z" st TypeError Hpaired)
    as [Hiff Hkept].
  assert ((handleKeyDown true "z" st).1 = Throw TypeError) as Hraised.
  { apply Hiff. split_and!; [done..|]. exists "b1".
    split_and!; [reflexivity|done|by left]. }
  split; [exact Hraised|]. by destruct (Hkept Hraised) as (_ & -> & _).
Defined.

(** [handleRemoteBlockDeleted] for a block of the open document that has
    its element. *)
Lemma handleRemoteBlockDeleted_present st doc b el :
  truthy (currentDocId st) = true → currentDocId st = Some doc →
  getBlockElement b st = Some el →
  ∃ remaining,
    handleRemoteBlockDeleted doc b st = withBlocks remaining st ∧
    remaining !! b = None ∧
    (∀ b' el', remaining !! b' = Some el' → blocks st !! b' = Some el').
Proof.
  intros Hopen Hdoc Hel. unfold handleRemoteBlockDeleted.
  rewrite Hopen, Hel. simpl.
  rewrite bool_decide_eq_false_2 by (rewrite Hdoc; by intros []).
  destruct (_ || _).
  - eexists. split; [done|]. split.
    + apply map_lookup_filter_None. left. apply lookup_delete_eq.
    + intros b' el' [Hin _]%map_lookup_filter_Some.
      by apply lookup_delete_Some in Hin as [_ ?].
  - eexists. split; [done|]. split.
    + apply lookup_delete_eq.
    + intros b' el' Hin. by apply lookup_delete_Some in Hin as [_ ?].
Qed.

Lemma notify_frame text kind st :
  currentDocId (notify text kind st) = currentDocId st ∧
  typingState (notify text kind st) = typingState st ∧
  activeLocks (notify text kind st) = activeLocks st ∧
  blocks (notify text kind st) = blocks st ∧
  history (notify text kind st) = history st ∧
  sent (effects (ws (notify text kind st))) = sent (effects (ws st)).
Proof. split_and!; try done. simpl. by rewrite sent_snoc, app_nil_r. Qed.

(** Ctrl+Z, again and again, while the block to undo has no element. *)
Lemma undo_stuck (n : nat) st target :
  peekUndoBlockId (history st) = Some target → target ≠ "" →
  getBlockElement target st = None →
  let pressed := Nat.iter n (λ st, (handleKeyDown true "z" st).2) st in
  history pressed = history st ∧ blocks pressed = blocks st ∧
  typingState pressed = typingState st ∧
  sent (effects (ws pressed)) = sent (effects (ws st)).
Proof.
  intros Hpeek Hne Hel. induction n as [|n IH]; [done|].
  cbn zeta in *. rewrite Nat.iter_succ.
  destruct IH as (Hhistory & Hblocks & Htyping & Hsent).
  rewrite (handleKeyDown_missing "z" undoAction target);
    [|done|by rewrite Hhistory|done|unfold getBlockElement; by rewrite Hblocks].
  cbn [snd]. destruct (notify_frame
    ("Cannot " +:+ actionName undoAction +:+ ": Block no longer exists.") "error"
    (Nat.iter n (λ st, (handleKeyDown true "z" st).2) st))
    as (_ & -> & _ & -> & -> & ->). done.
Qed.

(** X14.  A block that another user deletes takes its element away and
    leaves its history behind.  When that block is the one that
    [peekUndoBlockId] names, Ctrl+Z no longer undoes anything, in any
    block: every further Ctrl+Z finds no element, shows an error and
    raises the [TypeError] of [clearAllRedoStacks], and the history, the
    blocks and the messages sent stay as they are, however often the keys
    are pressed. *)
Theorem deleted_block_blocks_undo (n : nat) st doc b el :
  truthy (currentDocId st) = true → currentDocId st = Some doc →
  getBlockElement b st = Some el →
  peekUndoBlockId (history st) = Some b → b ≠ "" →
  let st' := handleRemoteBlockDeleted doc b st in
  let pressed := Nat.iter n (λ st, (handleKeyDown true "z" st).2) st' in
  getBlockElement b st' = None ∧
  history st' = history st ∧
  (handleKeyDown true "z" pressed).1 = Throw TypeError ∧
  history pressed = history st ∧
  blocks pressed = blocks st' ∧
  sent (effects (ws pressed)) = sent (effects (ws st)).
Proof.
  intros Hopen Hdoc Hel Hpeek Hne st' pressed.
  destruct (handleRemoteBlockDeleted_present st doc b el Hopen Hdoc Hel)
    as (remaining & Hst' & Hgone & _).
  fold st' in Hst'.
  assert (getBlockElement b st' = None) as Hel' by by rewrite Hst'.
  assert (history st' = history st) as Hhistory by by rewrite Hst'.
  assert (peekUndoBlockId (history st') = Some b) as Hpeek'
    by by rewrite Hhistory.
  destruct (undo_stuck n st' b Hpeek' Hne Hel')
    as (Hhistory' & Hblocks' & _ & Hsent').
  fold pressed in Hhistory', Hblocks', Hsent'.
  split_and!; [done|done| |by rewrite Hhistory'|done|by rewrite Hsent', Hst'].
  rewrite (handleKeyDown_missing "z" undoAction b);
    [done|done|by rewrite Hhistory'|done|unfold getBlockElement; by rewrite Hblocks'].
Qed.

Lemma deleted_block_blocks_undo_witness :
  let el := Element "DIV" None (Some "text") None "true" ["editable"] "" "" in
  let h :=
    run [PushState "b1" (Html "a"); PushState "b1" (Html "ab");
         PushState "b2" (Html "x"); PushState "b2" (Html "xy");
         PushState "b2" (Html "xyz")] UndoRedo.initial in
  let st :=
    Page (Some "doc1") (Typing None 0 None) ∅ {[ "b1" := el; "b2" := el ]} h
      (Connection (Some OPEN) (Some "alice") 0 []) in
  let st' := handleRemoteBlockDeleted "doc1" "b2" st in
  let pressed := Nat.iter 3 (λ st, (handleKeyDown true "z" st).2) st' in
  (handleKeyDown true "z" pressed).1 = Throw TypeError ∧
  undoStackOf "b1" (history pressed) = [Html "a"; Html "ab"] ∧
  sent (effects (ws pressed)) = [].
Proof.
  intros el h st st' pressed.
  assert ("b2" ≠ "") as Hne by done.
  destruct (deleted_block_blocks_undo 3 st "doc1" "b2" el
              eq_refl eq_refl eq_refl eq_refl Hne)
    as (_ & _ & Hraised & Hhistory & _ & Hsent).
  fold st' pressed in Hraised, Hhistory, Hsent.
  split_and!; [exact Hraised|by rewrite Hhistory|exact Hsent].
Defined.



(** A block without entries is not the one that is peeked. *)
Lemma peekTarget_not_empty action h b :
  undoStackOf b h = [] → redoStackOf b h = [] → peekTarget action h ≠ Some b.
Proof.
  intros Hundo Hredo Hpeek. destruct action; simpl in Hpeek.
  - apply peekBlockId_Some in Hpeek. unfold undoStackOf in Hundo.
    rewrite Hundo in Hpeek. simpl in Hpeek. lia.
  - apply peekBlockId_Some in Hpeek. unfold redoStackOf in Hredo.
    rewrite Hredo in Hpeek. simpl in Hpeek. lia.
Qed.

(** A block that is not the one peeked is not touched by [handleKeyDown]. *)
Lemma handleKeyDown_other ctrlKey key st b :
  (∀ action, peekTarget action (history st) ≠ Some b) →
  blocks (handleKeyDown ctrlKey key st).2 !! b = blocks st !! b ∧
  undoStackOf b (history (handleKeyDown ctrlKey key st).2) =
    undoStackOf b (history st) ∧
  redoStackOf b (history (handleKeyDown ctrlKey key st).2) =
    redoStackOf b (history st).
Proof.
  intros Hother.
  destruct (handleKeyDown_changes ctrlKey key st)
    as [[-> ->]|(action & target & Hpeek & Hblocks & Hhistory)]; [done|].
  assert (b ≠ target) as Hne.
  { intros ->. by apply (Hother action). }
  destruct (perform_other action target (history st) b Hne) as [Hundo Hredo].
  destruct (clearBlockHistory_stacks target b
              (perform action target (history st)).2) as [Hundo' Hredo'].
  rewrite decide_False in Hundo', Hredo' by done.
  split_and!.
  - destruct Hblocks as [->|[el ->]]; [done|]. by apply lookup_insert_ne.
  - destruct Hhistory as [-> | ->]; congruence.
  - destruct Hhistory as [-> | ->]; congruence.
Qed.

(** An input event on the focused, editable block, whatever the socket
    does. *)
Lemma keystroke_state st b el html :
  currentBlockId (typingState st) = Some b →
  getBlockElement b st = Some el → contentEditable el = "true" →
  let st' := handleBlockInput (Some b) (typed b html st) in
  currentBlockId (typingState st') = Some b ∧
  blocks st' = <[b := setInnerHTML html el]> (blocks st) ∧
  history st' = (pushState b (Html html) (history st)).2 ∧
  currentDocId st' = currentDocId st ∧
  socket (ws st') = socket (ws st).
Proof.
  intros Hb Hel Hedit st'. subst st'.
  rewrite (typed_present b html st el Hel).
  assert (getBlockElement b (setBlock b (setInnerHTML html el) st)
          = Some (setInnerHTML html el)) as Hel'.
  { unfold getBlockElement, setBlock. simpl. apply lookup_insert_eq. }
  destruct (decide (inherited b = None ∨ is_Some (get b (undoStacks (history st)))))
    as [Hkey|Hkey].
  2: { destruct (inherited b) as [len|] eqn:Hlen; [|by destruct Hkey; left].
       destruct (get b (undoStacks (history st))) as [u|] eqn:HU;
         [by destruct Hkey; right|].
       rewrite (handleBlockInput_inherited (setBlock b (setInnerHTML html el) st)
                  b (setInnerHTML html el) len) by done.
       by rewrite (pushState_inherited b _ _ len) by done. }
  rewrite (handleBlockInput_focused (setBlock b (setInnerHTML html el) st) b
             (setInnerHTML html el) Hb Hel' Hedit) by done.
  cbn zeta. destruct (bool_decide _); [|done].
  match goal with
  | |- context [sendCurrentBlockUpdate false ?s] =>
      destruct (sendCurrentBlockUpdate_frame false s)
        as (Hdoc' & Hb' & _ & Hblocks' & Hhistory' & Hsocket' & _)
  end.
  cbn zeta in *. by rewrite Hdoc', Hb', Hblocks', Hhistory', Hsocket'.
Qed.

(** Ctrl+Z or Ctrl+Y when the block peeked is the focused, editable
    one. *)
Lemma handleKeyDown_on_block st key action target el :
  actionOfKey key = Some action →
  peekTarget action (history st) = Some target → target ≠ "" →
  getBlockElement target st = Some el →
  currentBlockId (typingState st) = Some target →
  contentEditable el = "true" →
  handleKeyDown true key st =
    match perform action target (history st) with
    | (Throw e, h) => (Throw e, withHistory h st)
    | (Normal None, h) => (Normal tt, withHistory h st)
    | (Normal (Some stateToApply), h) =>
        (Normal tt,
         (sendSpecificBlockUpdate target (content stateToApply)
            (withBlocks
               (<[target := setInnerHTML (toHTML (content stateToApply)) el]>
                  (blocks st)) (withHistory h st))).2)
    end.
Proof.
  intros Hkey Hpeek Hne Hel Hfocus Hedit. unfold handleKeyDown.
  rewrite Hkey, Hpeek, Hel, Hfocus, Hedit, strictEq_refl. simpl.
  rewrite (bool_decide_eq_true_2 _ Hne). simpl.
  by destruct (perform action target (history st)) as [[[entry|]|e] h].
Qed.

(** X16.  A remote update is not undone by the keyboard.  After
    [handleRemoteUpdate] has handled an update of a block of the open
    document, the block has no history, so neither [peekUndoBlockId] nor
    [peekRedoBlockId] names it, and the key event that follows, whatever
    it is, leaves the element of the block and its empty history as they
    are. *)
Theorem remote_update_is_not_undone payload st ctrlKey key :
  otherDocument (up_document_id payload) st = false →
  let b := up_block_id payload in
  let st1 := handleRemoteUpdate payload st in
  let st2 := (handleKeyDown ctrlKey key st1).2 in
  (∀ action, peekTarget action (history st1) ≠ Some b) ∧
  blocks st2 !! b = blocks st1 !! b ∧
  undoStackOf b (history st2) = [] ∧ redoStackOf b (history st2) = [].
Proof.
  intros Hdoc b st1 st2.
  assert (undoStackOf b (history st1) = [] ∧ redoStackOf b (history st1) = [])
    as [Hundo Hredo].
  { subst st1. rewrite (handleRemoteUpdate_history payload st Hdoc).
    apply clearBlockHistory_clears. }
  assert (∀ action, peekTarget action (history st1) ≠ Some b) as Hother.
  { intros action. by apply peekTarget_not_empty. }
  destruct (handleKeyDown_other ctrlKey key st1 b Hother) as (Hblocks & Hu & Hr).
  fold st2 in Hblocks, Hu, Hr.
  split_and!; [done|done|by rewrite Hu|by rewrite Hr].
Qed.

Lemma remote_update_is_not_undone_witness :
  let el := Element "DIV" None (Some "text") None "true" ["editable"] "" "ab" in
  let st :=
    Page (Some "doc1") (Typing None 0 None) ∅ {[ "b1" := el ]}
      (run [PushState "b1" (Html "a"); PushState "b1" (Html "ab")] UndoRedo.initial)
      (Connection (Some OPEN) (Some "alice") 0 []) in
  let st1 :=
    handleRemoteUpdate (UpdatePayload "doc1" "b1" "xyz" (Metadata None None None [])) st in
  (innerHTML <$> blocks (handleKeyDown true "z" st1).2 !! "b1") = Some "xyz".
Proof.
  intros el st st1.
  destruct (remote_update_is_not_undone
              (UpdatePayload "doc1" "b1" "xyz" (Metadata None None None []))
              st true "z" eq_refl) as (_ & Hblocks & _).
  cbn [up_block_id] in Hblocks. fold st1 in Hblocks. by rewrite Hblocks.
Defined.

(** X17.  Ctrl+Z after a keystroke takes the keystroke back.  The focused,
    editable block shows the state on top of its undo stack; the user
    types, which changes the content, and presses Ctrl+Z while the block
    is the one that [peekUndoBlockId] names: the handler completes, the
    element is what it was before the keystroke, the undo stack is what it
    was, and the redo stack holds the content that was typed. *)
Theorem undo_takes_keystroke_back st b el html :
  currentBlockId (typingState st) = Some b → b ≠ "" →
  getBlockElement b st = Some el → contentEditable el = "true" →
  paired (history st) →
  last (undoStackOf b (history st)) = Some (Html (innerHTML el)) →
  length (undoStackOf b (history st)) < MAX_HISTORY →
  html ≠ innerHTML el →
  let st1 := handleBlockInput (Some b) (typed b html st) in
  peekUndoBlockId (history st1) = Some b →
  let st2 := (handleKeyDown true "z" st1).2 in
  (handleKeyDown true "z" st1).1 = Normal tt ∧
  getBlockElement b st1 = Some (setInnerHTML html el) ∧
  getBlockElement b st2 = Some el ∧
  undoStackOf b (history st2) = undoStackOf b (history st) ∧
  redoStackOf b (history st2) = [Html html].
Proof.
  intros Hb Hne Hel Hedit Hpaired Hsync Hroom Hnew st1 Hpeek st2.
  destruct (keystroke_state st b el html Hb Hel Hedit)
    as (Hb1 & Hblocks1 & Hhistory1 & _).
  fold st1 in Hb1, Hblocks1, Hhistory1.
  assert (getBlockElement b st1 = Some (setInnerHTML html el)) as Hel1.
  { unfold getBlockElement. rewrite Hblocks1. apply lookup_insert_eq. }
  assert (undoStackOf b (history st) ≠ []) as Hnonempty.
  { intros Hnil. by rewrite Hnil in Hsync. }
  destruct (pushState_changed b (Html html) (history st) Hnonempty)
    as [Hundo1 Hredo1].
  { rewrite Hsync. intros [= ?]. by apply Hnew. }
  rewrite decide_True in Hundo1 by done.
  rewrite <- Hhistory1 in Hundo1, Hredo1.
  assert (paired (history st1)) as Hpaired1.
  { rewrite Hhistory1. by apply (exec_paired (history st) (PushState b (Html html))). }
  destruct (undo_peeked (history st1) b Hpeek Hpaired1)
    as (u & r & Hu & Hr & _ & Hundo).
  rewrite Hundo1 in Hu. rewrite Hredo1 in Hr. subst u r.
  rewrite removelast_last, lastOr_snoc in Hundo. simpl app in Hundo.
  assert (lastOr Undefined (undoStackOf b (history st)) = Html (innerHTML el))
    as Hold by by apply last_lastOr.
  rewrite Hold in Hundo.
  pose proof (handleKeyDown_on_block st1 "z" undoAction b (setInnerHTML html el)
                eq_refl Hpeek Hne Hel1 Hb1 Hedit) as Hkey.
  simpl perform in Hkey. rewrite Hundo in Hkey.
  subst st2. rewrite Hkey. cbn [fst snd content toHTML].
  split_and!; [done|done|..].
  - unfold getBlockElement. rewrite sendSpecificBlockUpdate_blocks. simpl.
    rewrite lookup_insert_eq. by destruct el.
  - rewrite sendSpecificBlockUpdate_history. unfold undoStackOf. simpl.
    by rewrite stackIn_set_eq.
  - rewrite sendSpecificBlockUpdate_history. unfold redoStackOf. simpl.
    by rewrite stackIn_set_eq.
Qed.

Lemma undo_takes_keystroke_back_witness :
  let el := Element "DIV" None (Some "text") None "true" ["editable"] "" "ab" in
  let st :=
    Page (Some "doc1") (Typing (Some "b1") 2 None) {[ "b1" ]} {[ "b1" := el ]}
      (run [PushState "b1" (Html "a"); PushState "b1" (Html "ab")] UndoRedo.initial)
      (Connection (Some OPEN) (Some "alice") 0 []) in
  let st1 := handleBlockInput (Some "b1") (typed "b1" "abc" st) in
  let st2 := (handleKeyDown true "z" st1).2 in
  getBlockElement "b1" st2 = Some el ∧
  redoStackOf "b1" (history st2) = [Html "abc"].
Proof.
  intros el st st1 st2.
  assert ("b1" ≠ "") as Hne by done.
  assert (paired (history st)) as Hpaired by apply run_paired, paired_initial.
  assert (length (undoStackOf "b1" (history st)) < MAX_HISTORY) as Hroom
    by (vm_compute; lia).
  assert ("abc" ≠ innerHTML el) as Hnew by discriminate.
  destruct (undo_takes_keystroke_back st "b1" el "abc"
              eq_refl Hne eq_refl eq_refl Hpaired eq_refl Hroom Hnew eq_refl)
    as (_ & _ & Hel & _ & Hredo).
  split; [exact Hel|exact Hredo].
Defined.















Lemma skipWhiteSpace_all l :
  forallb isWhiteSpace l = true → skipWhiteSpace l = [].
Proof.
  induction l as [|c l IH]; [done|]. simpl.
  intros [-> Hl]%andb_prop. by apply IH.
Qed.

Lemma skipWhiteSpace_head l :
  match skipWhiteSpace l with
  | [] => forallb isWhiteSpace l = true
  | c :: _ => isWhiteSpace c = false
  end.
Proof.
  induction l as [|c l IH]; [done|]. simpl.
  destruct (isWhiteSpace c) eqn:Hc; [|done]. simpl.
  by destruct (skipWhiteSpace l).
Qed.

Lemma skipWhiteSpace_suffix l : skipWhiteSpace l `suffix_of` l.
Proof.
  induction l as [|c l IH]; [done|]. simpl.
  destruct (isWhiteSpace c); [by apply suffix_cons_r|done].
Qed.



(** X21.  The username that is set.  [handleSetUsername] on a value that
    is empty or all white space raises a [TypeError], that of the call of
    [ui.showNotification], which [ui.js] does not export, and neither
    shows a notification nor asks for a connection.  On any other value
    of ASCII characters it completes, and the connection is asked for
    under the value without the white space around it. *)
Theorem handleSetUsername_trims_or_raises value st :
  (forallb isWhiteSpace (list_ascii_of_string value) = true →
   Main.handleSetUsername value st = (Throw TypeError, st)) ∧
  (Forall (λ c, nat_of_ascii c < 128) (list_ascii_of_string value) →
   forallb isWhiteSpace (list_ascii_of_string value) = false →
   let username := Main.trim value in
   let outcome := Main.handleSetUsername value st in
   outcome.1 = Normal tt ∧
   currentUsername outcome.2 = Some username ∧
   (socket outcome.2 = Some OPEN ∨ socket outcome.2 = Some CONNECTING) ∧
   username ≠ "" ∧
   (∀ c, head (list_ascii_of_string username) = Some c → isWhiteSpace c = false) ∧
   (∀ c, last (list_ascii_of_string username) = Some c → isWhiteSpace c = false)).
Proof.
  unfold Main.handleSetUsername, Main.trim.
  pose proof (skipWhiteSpace_head (list_ascii_of_string value)) as Hfront.
  set (front := skipWhiteSpace (list_ascii_of_string value)) in *.
  pose proof (skipWhiteSpace_head (reverse front)) as Hback.
  set (back := skipWhiteSpace (reverse front)) in *.
  split.
  - intros Hblank. subst back front.
    rewrite (skipWhiteSpace_all _ Hblank). done.
  - intros _ Hsome. cbn zeta.
    destruct front as [|c front'] eqn:Hfront'; [congruence|].
    assert (back ≠ []) as Hback'.
    { intros Hnil. rewrite Hnil in Hback.
      rewrite reverse_cons, forallb_app in Hback. simpl in Hback.
      rewrite Hfront, andb_false_r in Hback. done. }
    assert (reverse back ≠ []) as Hrev.
    { intros Hnil. apply Hback'. by rewrite <- (reverse_involutive back), Hnil. }
    assert (string_of_list_ascii (reverse back) ≠ "") as Hname.
    { intros Hnil. apply Hrev.
      by rewrite <- (list_ascii_of_string_of_list_ascii (reverse back)), Hnil. }
    assert (truthy (Some (string_of_list_ascii (reverse back))) = true) as ->
      by by apply truthy_Some.
    simpl negb. cbn iota. cbn [fst snd].
    destruct (connectWebSocket_connected
                (Some (string_of_list_ascii (reverse back)))
                (emit (SetUsername (Some (string_of_list_ascii (reverse back)))) st))
      as [Hsocket Huser].
    rewrite list_ascii_of_string_of_list_ascii.
    split_and!; [done|done|done|done| |].
    + intros c0 Hhead.
      assert (last back = Some c0) as Hlast.
      { by rewrite <- (reverse_involutive back), last_reverse. }
      destruct (skipWhiteSpace_suffix (reverse (c :: front'))) as [pre Hpre].
      fold back in Hpre.
      assert (last (reverse (c :: front')) = Some c) as Hc
        by by rewrite last_reverse.
      rewrite Hpre, last_app, Hlast in Hc. by injection Hc as ->.
    + intros c0 Hlast. rewrite last_reverse in Hlast.
      destruct back as [|c1 back1]; [done|]. by injection Hlast as <-.
Qed.

Lemma handleSetUsername_trims_or_raises_witness :
  Main.handleSetUsername "   " WebSocket.initial = (Throw TypeError, WebSocket.initial) ∧
  currentUsername (Main.handleSetUsername "  alice " WebSocket.initial).2 = Some "alice".
Proof.
  destruct (handleSetUsername_trims_or_raises "   " WebSocket.initial) as [Hblank _].
  destruct (handleSetUsername_trims_or_raises "  alice " WebSocket.initial)
    as [_ Hname].
  assert (Forall (λ c, nat_of_ascii c < 128) (list_ascii_of_string "  alice "))
    as Hascii by (repeat (constructor; [vm_compute; lia|]); constructor).
  split.
  - by apply Hblank.
  - by destruct (Hname Hascii eq_refl) as (_ & -> & _).
Defined.



(** X23.  Options that cannot be applied.  A [table_options_updated]
    event never removes the table and never changes its rows.  When the
    options do not parse, or are [null], the handler catches the error
    and the columns stay as they were; when they parse to anything
    without an array of columns, all columns are removed. *)
Theorem options_update_keeps_rows currentDocId document_id parsed tableElement :
  let result :=
    handleRemoteOptionsUpdated currentDocId document_id parsed tableElement in
  (tbody <$> result) = (tbody <$> tableElement) ∧
  (parsed = None ∨ parsed = Some JNull → result = tableElement) ∧
  (∀ doc options table,
     doc ≠ "" → options ≠ JNull →
     (∀ colWidths, columnsOf options ≠ Normal (Some (JArr colWidths))) →
     handleRemoteOptionsUpdated (Some doc) doc (Some options) (Some table) =
       Some (Table (Some []) (tbody table))).
Proof.
  intros result. subst result. unfold handleRemoteOptionsUpdated.
  split_and!.
  - destruct (_ || _); [done|]. destruct tableElement as [table|]; [|done].
    destruct parsed as [options|]; [|done].
    destruct (columnsOf options) as [[[]|]|]; done.
  - destruct (_ || _); [done|]. destruct tableElement as [table|]; [|done].
    by intros [-> | ->].
  - intros doc options table Hdoc Hnull Hcolumns.
    rewrite (truthy_Some doc Hdoc). simpl.
    rewrite bool_decide_eq_false_2 by (by intros []).
    destruct (columnsOf options) as [[width|]|e] eqn:Hcol.
    + destruct width as [| | | |colWidths|]; try done.
      by destruct (Hcolumns colWidths).
    + done.
    + by destruct options.
Qed.

Lemma options_update_keeps_rows_witness :
  let table := Table (Some [Pixels (Finite 120)]) (Some []) in
  handleRemoteOptionsUpdated (Some "doc1") "doc1" (Some JNull) (Some table)
    = Some table ∧
  handleRemoteOptionsUpdated (Some "doc1") "doc1"
    (Some (JObj [("columns", JStr "120px")])) (Some table)
    = Some (Table (Some []) (Some [])).
Proof.
  intros table.
  destruct (options_update_keeps_rows (Some "doc1") "doc1" (Some JNull) (Some table))
    as (_ & Hkept & Hwiped).
  split.
  - apply Hkept. by right.
  - by apply (Hwiped "doc1" (JObj [("columns", JStr "120px")]) table).
Defined.
